(** * Ninuki engine: board capture bookkeeping, rollout player and
      time-bounded alpha-beta solver

    A shallow embedding of
      - [assignment1/gtp_connection.py]  ([Gtp]: coordinates, capture
        resolution, move generation command),
      - [assignment3/Ninuki.py]          ([Rollout]: the simulation player),
      - [assignment4/team7/Ninuki.py]    ([Solver]: iterative-deepening
        alpha-beta).

    The modules [board_base], [board], [board_util] and [engine] that the
    three files import are not part of the sources at hand.  Their constants
    are spelled out below; their classes and functions are taken as section
    parameters, with whatever is assumed about them stated as hypotheses of
    the individual theorems. *)

From Stdlib Require Import ZArith List String Ascii Bool Lia QArith DecimalString.
From Stdlib Require Import Sorted Permutation Lqa.
From stdpp Require Import base list.
Import ListNotations.

Local Open Scope Z_scope.

(** ** Constants of [board_base]

    Modelled from the spec: [board_base.py] is missing from the sources.  The
    colour codes are fixed by their uses in the code: [genmove_cmd] compares
    the opponent colour with the literals [1] (black) and [2] (white),
    [simulate] indexes a three-slot tally with [EMPTY], [BLACK] and [WHITE],
    and [BORDER] is the remaining cell state.  [opponent] swaps the two
    stone colours.  [format_point] asserts [MAXSIZE <= 25] and has 25 column
    letters. *)

Definition EMPTY : Z := 0.
Definition BLACK : Z := 1.
Definition WHITE : Z := 2.
Definition BORDER : Z := 3.
Definition PASS : Z := 0.
Definition MAXSIZE : Z := 25.

Definition opponent (color : Z) : Z := WHITE + BLACK - color.

(** ** Python helpers *)

(** [str.lower] on ASCII text. *)
Definition lower_char (c : ascii) : ascii :=
  let n := nat_of_ascii c in
  if (65 <=? n)%nat && (n <=? 90)%nat then ascii_of_nat (n + 32) else c.

Fixpoint lower (s : string) : string :=
  match s with
  | EmptyString => EmptyString
  | String c s' => String (lower_char c) (lower s')
  end.

(** [str(n)] for an integer. *)
Definition str (n : Z) : string := NilZero.string_of_int (Z.to_int n).

(** [s[i]] for a string and an integer index: negative indices count from
    the end, out of range raises [IndexError] ([None]). *)
Definition py_string_index (s : string) (i : Z) : option ascii :=
  let n := Z.of_nat (String.length s) in
  if (0 <=? i) && (i <? n) then String.get (Z.to_nat i) s
  else if (- n <=? i) && (i <? 0) then String.get (Z.to_nat (n + i)) s
  else None.

(** [bool == int]: a Python bool compares as [0] or [1]. *)
Definition py_bool_eq_int (b : bool) (n : Z) : bool := Z.b2z b =? n.

(** ** [assignment1/gtp_connection.py] *)

Module Gtp.

(** [point_to_coord(point, boardsize)]: [divmod] is floor division, as is
    [Z.div] for the positive [NS] of a board. *)
Definition point_to_coord (point : Z) (boardsize : Z) : Z * Z :=
  if point =? PASS then (PASS, PASS)
  else
    let NS := boardsize + 1 in
    (point / NS, point mod NS).

Definition column_letters : string := "ABCDEFGHJKLMNOPQRSTUVWXYZ".

(** [format_point(move)]; [None] is the raised [ValueError]. *)
Definition format_point (move : Z * Z) : option string :=
  if fst move =? PASS then Some "PASS"%string
  else
    let '(row, col) := move in
    if negb ((0 <=? row) && (row <? MAXSIZE)) || negb ((0 <=? col) && (col <? MAXSIZE))
    then None
    else
      match py_string_index column_letters (col - 1) with
      | Some c => Some (String c (str row))
      | None => None
      end.

(** [color_to_int(c)]; [None] is the [KeyError] of the dictionary lookup. *)
Definition color_to_int (c : string) : option Z :=
  if String.eqb c "b" then Some BLACK
  else if String.eqb c "w" then Some WHITE
  else if String.eqb c "e" then Some EMPTY
  else if String.eqb c "BORDER" then Some BORDER
  else None.

(** How a call ends: it returns, or an exception leaves it; either way
    with the state of the objects it worked on. *)
Inductive outcome (A E : Type) : Type :=
  | Returned (a : A)
  | Raised (e : E).

Arguments Returned {A E}.
Arguments Raised {A E}.

Section Connection.

(** The state of a [GoBoard] that this file does not look at. *)
Variable Rest : Type.

(** The attributes of [GoBoard] the connection reads and writes. *)
Record GoBoard := mkBoard {
  size : Z;
  NS : Z;
  maxpoint : Z;
  board : list Z;            (* the 1-D numpy array of cell colours *)
  current_player : Z;
  rest : Rest
}.

(** Methods of [GoBoard] and the random source, absent from the sources. *)
Variable result : GoBoard -> string.
Variable get_empty_points : GoBoard -> list Z.
Variable is_legal : GoBoard -> Z -> Z -> bool.
Variable play_move : GoBoard -> Z -> Z -> GoBoard.
Variable choice : list Z -> Z.      (* random.choice *)

(** Modelled from the spec: [GoBoard.get_color(point)] reads the cell
    array.  Every call in this file is guarded by [_is_on_board], so the
    value chosen outside the array (a border cell) is never consulted on a
    board whose array has [maxpoint] cells. *)
Definition get_color (b : GoBoard) (point : Z) : Z :=
  default BORDER (board b !! Z.to_nat point).

Definition set_cell (b : GoBoard) (point : Z) (c : Z) : GoBoard :=
  mkBoard (size b) (NS b) (maxpoint b) (<[Z.to_nat point := c]> (board b))
          (current_player b) (rest b).

Record GtpConnection := mkConn {
  white_score : Z;
  black_score : Z;
  conn_board : GoBoard
}.

Definition _is_on_board (self : GtpConnection) (point : Z) : bool :=
  (0 <=? point) && (point <? maxpoint (conn_board self)).

Definition directions (self : GtpConnection) : list Z :=
  let ns := NS (conn_board self) in
  [ 1; -1;
    ns; - ns;
    ns + 1; - ns + 1; ns - 1; - ns - 1 ].

(** One iteration of the [for direction in directions] loop.  The loop
    state is the connection (whose board is mutated in place) and the
    [captured_stones] list.  [format_point] may raise; the exception leaves
    [capture_stones] with the connection as it is at that moment. *)
Definition capture_direction (point color : Z)
    (acc : GtpConnection * list string) (direction : Z)
    : outcome (GtpConnection * list string) GtpConnection :=
  let '(self, captured_stones) := acc in
  let opponent_color := opponent color in
  let neighbor1 := point + direction in
  let neighbor2 := neighbor1 + direction in
  if _is_on_board self neighbor1 &&
     _is_on_board self neighbor2 &&
     (get_color (conn_board self) neighbor1 =? opponent_color) &&
     (get_color (conn_board self) neighbor2 =? opponent_color)
  then
    let end1 := neighbor1 - direction in
    let end2 := neighbor2 + direction in
    if _is_on_board self end1 &&
       _is_on_board self end2 &&
       ((get_color (conn_board self) end1 =? color)
        || py_bool_eq_int (_is_on_board self end1) BORDER) &&
       ((get_color (conn_board self) end2 =? color)
        || py_bool_eq_int (_is_on_board self end2) BORDER)
    then
      let move_coord1 := point_to_coord neighbor1 (size (conn_board self)) in
      let move_coord2 := point_to_coord neighbor2 (size (conn_board self)) in
      match format_point move_coord1, format_point move_coord2 with
      | Some s1, Some s2 =>
          let b1 := set_cell (conn_board self) neighbor1 EMPTY in
          let b2 := set_cell b1 neighbor2 EMPTY in
          Returned (mkConn (white_score self) (black_score self) b2,
                    captured_stones ++ [s1; s2])
      | _, _ => Raised self
      end
    else Returned acc
  else Returned acc.

Fixpoint capture_loop (point color : Z) (ds : list Z)
    (acc : GtpConnection * list string)
    : outcome (GtpConnection * list string) GtpConnection :=
  match ds with
  | [] => Returned acc
  | d :: ds' =>
      match capture_direction point color acc d with
      | Returned acc' => capture_loop point color ds' acc'
      | Raised self => Raised self
      end
  end.

(** [capture_stones(point, color)]: an exception skips the update of the
    score. *)
Definition capture_stones (self : GtpConnection) (point color : Z)
    : outcome GtpConnection GtpConnection :=
  match capture_loop point color (directions self) (self, []) with
  | Raised self' => Raised self'
  | Returned (self', captured_stones) =>
      let n := Z.of_nat (length captured_stones) in
      if color =? BLACK then
        Returned (mkConn (white_score self') (black_score self' + n) (conn_board self'))
      else if color =? WHITE then
        Returned (mkConn (white_score self' + n) (black_score self') (conn_board self'))
      else Returned self'
  end.

(** [genmove_cmd(args)] with [args = [args0]].  The outer [option] is an
    exception escaping the command; the inner one is the text handed to
    [respond], if any. *)
Definition genmove_cmd (self : GtpConnection) (args0 : string)
    : option (option string * GtpConnection) :=
  let board_color := lower args0 in
  match color_to_int board_color with
  | None => None
  | Some color =>
    let opponent_color := opponent color in
    if (opponent_color =? 2) && (10 <=? white_score self) then
      Some (Some "resign"%string, self)
    else if (opponent_color =? 1) && (10 <=? black_score self) then
      Some (Some "resign"%string, self)
    else if (opponent_color =? 1) && String.eqb (result (conn_board self)) "black" then
      Some (Some "resign"%string, self)
    else if (opponent_color =? 2) && String.eqb (result (conn_board self)) "white" then
      Some (Some "resign"%string, self)
    else
      let emptyPoints := get_empty_points (conn_board self) in
      if (length emptyPoints =? 0)%nat then Some (Some "pass"%string, self)
      else
        let legalMoves :=
          List.filter (fun point => is_legal (conn_board self) point color) emptyPoints in
        if (0 <? length legalMoves)%nat then
          let move := choice legalMoves in
          let move_coord := point_to_coord move (size (conn_board self)) in
          let self1 :=
            mkConn (white_score self) (black_score self)
                   (play_move (conn_board self) move color) in
          match format_point move_coord with
          | None => None
          | Some s =>
              match capture_stones self1 move color with
              | Raised _ => None
              | Returned self2 => Some (Some s, self2)
              end
          end
        else Some (None, self)
  end.

(** *** Counting what a capture pass does to the board *)

(** Number of cells that held a stone (or a border) in [old] and are
    [EMPTY] in [new]. *)
Fixpoint flipped (old new : list Z) : nat :=
  match old, new with
  | o :: old', n :: new' =>
      ((if negb (Z.eqb o EMPTY) && Z.eqb n EMPTY then 1 else 0) + flipped old' new')%nat
  | _, _ => 0%nat
  end.

Definition score (color : Z) (self : GtpConnection) : Z :=
  if color =? BLACK then black_score self else white_score self.

(** The board array has exactly [maxpoint] cells ([GoBoard.reset]). *)
Definition array_ok (b : GoBoard) : Prop :=
  Z.of_nat (length (board b)) = maxpoint b.

(** Every stone on the board sits at a point that [format_point] accepts
    (it rejects rows and columns from [MAXSIZE] on). *)
Definition stones_formattable (b : GoBoard) : Prop :=
  forall p, 0 <= p < maxpoint b ->
    get_color b p = BLACK \/ get_color b p = WHITE ->
    is_Some (format_point (point_to_coord p (size b))).

(** Loop invariant of the capture pass, relative to the board [b0] the
    pass started from. *)
Record capture_inv (self0 : GtpConnection) (acc : GtpConnection * list string) : Prop := {
  inv_white : white_score acc.1 = white_score self0;
  inv_black : black_score acc.1 = black_score self0;
  inv_size : size (conn_board acc.1) = size (conn_board self0);
  inv_NS : NS (conn_board acc.1) = NS (conn_board self0);
  inv_maxpoint : maxpoint (conn_board acc.1) = maxpoint (conn_board self0);
  inv_player : current_player (conn_board acc.1) = current_player (conn_board self0);
  inv_rest : rest (conn_board acc.1) = rest (conn_board self0);
  inv_length : length (board (conn_board acc.1)) = length (board (conn_board self0));
  inv_cells : forall i c, board (conn_board acc.1) !! i = Some c -> c <> EMPTY ->
                board (conn_board self0) !! i = Some c;
  inv_flipped : flipped (board (conn_board self0)) (board (conn_board acc.1)) = length acc.2;
  inv_pairs : exists k, length acc.2 = (2 * k)%nat
}.

Lemma flipped_same (l : list Z) : flipped l l = 0%nat.
Proof.
  induction l as [|x l IH]; simpl; [reflexivity|].
  rewrite IH. destruct (x =? EMPTY); reflexivity.
Qed.

Lemma flipped_insert (old new : list Z) (i : nat) (c : Z) :
  old !! i = Some c -> new !! i = Some c -> c <> EMPTY ->
  flipped old (<[i := EMPTY]> new) = S (flipped old new).
Proof.
  revert new i. induction old as [|o old IH]; intros new i Ho Hn Hc.
  - discriminate.
  - destruct new as [|n new]; [discriminate|].
    destruct i as [|i]; simpl in *.
    + injection Ho as ->. injection Hn as ->.
      apply Z.eqb_neq in Hc. rewrite Hc. simpl. reflexivity.
    + rewrite (IH new i Ho Hn Hc). lia.
Qed.

Lemma get_color_lookup (b : GoBoard) (p c : Z) :
  get_color b p = c -> c <> BORDER -> board b !! Z.to_nat p = Some c.
Proof.
  unfold get_color. destruct (board b !! Z.to_nat p); simpl; congruence.
Qed.

Lemma capture_inv_init (self : GtpConnection) : capture_inv self (self, []).
Proof.
  constructor; simpl; try reflexivity.
  - auto.
  - apply flipped_same.
  - exists 0%nat. reflexivity.
Qed.

Lemma capture_direction_inv (self0 : GtpConnection) (point color d : Z)
    (acc : GtpConnection * list string) :
  color = BLACK \/ color = WHITE ->
  d <> 0 ->
  array_ok (conn_board self0) ->
  stones_formattable (conn_board self0) ->
  capture_inv self0 acc ->
  exists acc', capture_direction point color acc d = Returned acc' /\ capture_inv self0 acc'.
Proof.
  intros Hcol Hd Harr Hfmt Hinv.
  destruct acc as [self cap]. unfold capture_direction.
  set (opp := opponent color).
  assert (Hopp : (opp = BLACK \/ opp = WHITE) /\ opp <> EMPTY /\ opp <> BORDER).
  { unfold opp, opponent, BLACK, WHITE, EMPTY, BORDER in *. lia. }
  destruct Hopp as (Hoppc & HoppE & HoppB).
  set (n1 := point + d). set (n2 := n1 + d).
  destruct (_is_on_board self n1 && _is_on_board self n2
            && (get_color (conn_board self) n1 =? opp)
            && (get_color (conn_board self) n2 =? opp)) eqn:Hguard;
    [| eauto].
  apply andb_prop in Hguard as [Hguard Hc2].
  apply andb_prop in Hguard as [Hguard Hc1].
  apply andb_prop in Hguard as [Hon1 Hon2].
  apply Z.eqb_eq in Hc1, Hc2.
  match goal with |- context [if ?g then _ else _] => destruct g eqn:Hflank end;
    [| eauto].
  pose proof Hinv as [Hw Hb Hsz Hns Hmax Hpl Hrest Hlen Hcells Hflip Hpairs].
  simpl in *.
  unfold _is_on_board in Hon1, Hon2. rewrite Hmax in Hon1, Hon2.
  apply andb_prop in Hon1 as [Hon1a Hon1b], Hon2 as [Hon2a Hon2b].
  apply Z.leb_le in Hon1a, Hon2a. apply Z.ltb_lt in Hon1b, Hon2b.
  pose proof (get_color_lookup _ _ _ Hc1 HoppB) as Hl1.
  pose proof (get_color_lookup _ _ _ Hc2 HoppB) as Hl2.
  pose proof (Hcells _ _ Hl1 HoppE) as Hl1'.
  pose proof (Hcells _ _ Hl2 HoppE) as Hl2'.
  assert (Hne : Z.to_nat n1 <> Z.to_nat n2) by (unfold n2; lia).
  destruct (Hfmt n1) as [s1 Hs1]; [lia | |].
  { unfold get_color. rewrite Hl1'. simpl. exact Hoppc. }
  destruct (Hfmt n2) as [s2 Hs2]; [lia | |].
  { unfold get_color. rewrite Hl2'. simpl. exact Hoppc. }
  rewrite Hsz, Hs1, Hs2.
  eexists. split; [reflexivity|].
  constructor; simpl; try assumption.
  - rewrite !length_insert. exact Hlen.
  - intros i c Hi Hc.
    destruct (decide (i = Z.to_nat n2)) as [->|Hi2].
    { rewrite list_lookup_insert_eq in Hi; [congruence|].
      rewrite length_insert. eapply lookup_lt_Some; eauto. }
    rewrite list_lookup_insert_ne in Hi by auto.
    destruct (decide (i = Z.to_nat n1)) as [->|Hi1].
    { rewrite list_lookup_insert_eq in Hi; [congruence|].
      eapply lookup_lt_Some; eauto. }
    rewrite list_lookup_insert_ne in Hi by auto. auto.
  - rewrite (flipped_insert _ _ _ opp); auto.
    + rewrite (flipped_insert _ _ _ opp); auto.
      rewrite Hflip, length_app. simpl. lia.
    + rewrite list_lookup_insert_ne by auto. exact Hl2.
  - destruct Hpairs as [k Hk]. exists (S k). rewrite length_app. simpl. lia.
Qed.

Lemma capture_loop_inv (self0 : GtpConnection) (point color : Z) (ds : list Z) :
  color = BLACK \/ color = WHITE ->
  Forall (fun d => d <> 0) ds ->
  array_ok (conn_board self0) ->
  stones_formattable (conn_board self0) ->
  forall acc, capture_inv self0 acc ->
  exists acc', capture_loop point color ds acc = Returned acc' /\ capture_inv self0 acc'.
Proof.
  intros Hcol Hds Harr Hfmt.
  induction Hds as [|d ds Hd Hds IH]; intros acc Hinv; simpl.
  - eauto.
  - destruct (capture_direction_inv self0 point color d acc Hcol Hd Harr Hfmt Hinv)
      as (acc1 & -> & Hinv1).
    apply IH, Hinv1.
Qed.

Lemma directions_nonzero (self : GtpConnection) :
  2 <= NS (conn_board self) -> Forall (fun d => d <> 0) (directions self).
Proof.
  intros H. unfold directions.
  repeat (constructor; [lia|]). constructor.
Qed.

(** X2.  Capture conservation: on a board whose stones all sit at
    formattable points, the capture pass for a move of Black or White
    completes, and the number of cells it turns from a stone to [EMPTY]
    equals the amount added to the mover's score; that amount is even
    (stones leave in pairs) and the other player's score is untouched. *)
Theorem capture_conservation (self : GtpConnection) (point color : Z) :
  color = BLACK \/ color = WHITE ->
  2 <= NS (conn_board self) ->
  array_ok (conn_board self) ->
  stones_formattable (conn_board self) ->
  exists self' k,
    capture_stones self point color = Returned self' /\
    Z.of_nat (flipped (board (conn_board self)) (board (conn_board self')))
      = score color self' - score color self /\
    score color self' - score color self = 2 * Z.of_nat k /\
    score (opponent color) self' = score (opponent color) self.
Proof.
  intros Hcol Hns Harr Hfmt.
  destruct (capture_loop_inv self point color (directions self) Hcol
              (directions_nonzero self Hns) Harr Hfmt (self, [])
              (capture_inv_init self))
    as ([self1 cap] & Hloop & Hinv).
  unfold capture_stones. rewrite Hloop. clear Hloop.
  destruct Hinv as [Hw Hb _ _ _ _ _ _ _ Hflip [k Hk]]. simpl in *.
  destruct Hcol as [-> | ->]; simpl.
  - eexists; exists k. split; [reflexivity|].
    unfold score; simpl. rewrite Hflip, Hb, Hw, Hk. repeat split; lia.
  - eexists; exists k. split; [reflexivity|].
    unfold score; simpl. rewrite Hflip, Hb, Hw, Hk. repeat split; lia.
Qed.

(** C8.  A [genmove] request for Black or White is answered with
    ["resign"], leaving the connection as it was and whatever the board's
    move-generation methods and the random source would do, as soon as
    the opponent's capture score has reached 10 or the board's result
    names the opponent as winner. *)
Theorem genmove_resign (self : GtpConnection) (args0 : string) (color : Z) :
  color_to_int (lower args0) = Some color ->
  (color = BLACK /\
     (10 <= white_score self \/ result (conn_board self) = "white"%string)) \/
  (color = WHITE /\
     (10 <= black_score self \/ result (conn_board self) = "black"%string)) ->
  genmove_cmd self args0 = Some (Some "resign"%string, self).
Proof.
  intros Hc H. unfold genmove_cmd. rewrite Hc.
  destruct H as [[-> H] | [-> H]]; simpl.
  - destruct (10 <=? white_score self) eqn:Hw; [reflexivity|].
    destruct H as [H | H]; [apply Z.leb_gt in Hw; lia|].
    rewrite H. reflexivity.
  - destruct (10 <=? black_score self) eqn:Hb; [reflexivity|].
    destruct H as [H | H]; [apply Z.leb_gt in Hb; lia|].
    rewrite H. reflexivity.
Qed.

End Connection.

(** *** The text of a point is never the pass answer *)

Lemma small_cases (n : Z) (P : Z -> Prop) :
  0 <= n < 25 ->
  (forall k : nat, (k < 25)%nat -> P (Z.of_nat k)) -> P n.
Proof.
  intros Hn H. rewrite <- (Z2Nat.id n) by lia. apply H. lia.
Qed.

(** [format_point] spells a column in upper case, so its text differs from
    ["pass"]. *)
Lemma format_point_not_pass (mv : Z * Z) (s : string) :
  format_point mv = Some s -> s <> "pass"%string.
Proof.
  destruct mv as [row col]. unfold format_point. simpl fst.
  destruct (row =? PASS); [intros H; injection H as <-; discriminate|].
  destruct (negb ((0 <=? row) && (row <? MAXSIZE))
            || negb ((0 <=? col) && (col <? MAXSIZE))) eqn:Hr; [discriminate|].
  apply orb_false_elim in Hr as [_ Hc]. apply negb_false_iff in Hc.
  apply andb_prop in Hc as [Hc1 Hc2]. apply Z.leb_le in Hc1. apply Z.ltb_lt in Hc2.
  revert s. apply (small_cases col); [unfold MAXSIZE in Hc2; lia|].
  intros k Hk s.
  do 25 (destruct k as [|k]; [vm_compute; intros H; injection H as <-; discriminate|]).
  lia.
Qed.

(** For a point on a row (not the pass point), the lower-cased text of
    [format_point] is a column letter followed by the row number, which is
    not ["pass"] either. *)
Lemma format_point_lower_not_pass (mv : Z * Z) (s : string) :
  fst mv <> PASS -> format_point mv = Some s -> lower s <> "pass"%string.
Proof.
  destruct mv as [row col]. unfold format_point. simpl fst. intros Hrow.
  apply Z.eqb_neq in Hrow. rewrite Hrow.
  destruct (negb ((0 <=? row) && (row <? MAXSIZE))
            || negb ((0 <=? col) && (col <? MAXSIZE))) eqn:Hr; [discriminate|].
  apply orb_false_elim in Hr as [Hr _]. apply negb_false_iff in Hr.
  apply andb_prop in Hr as [Hr1 Hr2]. apply Z.leb_le in Hr1. apply Z.ltb_lt in Hr2.
  destruct (py_string_index column_letters (col - 1)) as [c|]; [|discriminate].
  intros H. injection H as <-. simpl. intros H. injection H as _ H.
  revert Hrow H. apply (small_cases row); [unfold MAXSIZE in Hr2; lia|].
  intros k Hk.
  do 25 (destruct k as [|k]; [vm_compute; intros; discriminate|]).
  lia.
Qed.

Arguments mkBoard {Rest}.
Arguments mkConn {Rest}.
Arguments size {Rest}.
Arguments maxpoint {Rest}.
Arguments board {Rest}.
Arguments conn_board {Rest}.
Arguments white_score {Rest}.
Arguments black_score {Rest}.
Arguments get_color {Rest}.
Arguments set_cell {Rest}.
Arguments capture_stones {Rest}.
Arguments score {Rest}.

(** [genmove_cmd] answers ["pass"] only on a board without empty points
    (and only after the resignation tests have failed). *)
Lemma genmove_pass_only_when_full (Rest : Type)
    (result : GoBoard Rest -> string)
    (get_empty_points : GoBoard Rest -> list Z)
    (is_legal : GoBoard Rest -> Z -> Z -> bool)
    (play_move : GoBoard Rest -> Z -> Z -> GoBoard Rest)
    (choice : list Z -> Z)
    (self self' : GtpConnection Rest) (args0 : string) :
  genmove_cmd Rest result get_empty_points is_legal play_move choice self args0
    = Some (Some "pass"%string, self') ->
  get_empty_points (conn_board self) = [] /\ self' = self.
Proof.
  unfold genmove_cmd.
  destruct (color_to_int (lower args0)) as [color|]; [|discriminate].
  repeat (match goal with
          | |- context [if ?c then Some (Some "resign"%string, self) else _] =>
              destruct c; [discriminate|]
          end).
  destruct (get_empty_points (conn_board self)) as [|p ps] eqn:Hpts.
  - intros H. injection H as <-. auto.
  - cbn [length Nat.eqb].
    match goal with |- context [(0 <? ?n)%nat] => destruct (0 <? n)%nat end;
      [|discriminate].
    destruct (format_point _) as [s|] eqn:Hfmt; [|discriminate].
    destruct (capture_stones _ _ _); [|discriminate].
    intros H. injection H as -> _.
    exfalso. exact (format_point_not_pass _ _ Hfmt eq_refl).
Qed.

(** *** Concrete boards

    Boards in the layout of [GoBoard]: [NS = size + 1], row [r] starts at
    [r * NS + 1], and the cells not in a row are border cells. *)

(** A 3x3 board, rows at 5..7, 9..11, 13..15.  Black has just played at
    point 5; White holds 6 and 7; point 8 is a border cell. *)
Definition board3 : GoBoard unit :=
  mkBoard 3 4 21
    [ 3; 3; 3; 3; 3;
      1; 2; 2; 3;
      0; 0; 0; 3;
      0; 0; 0; 3;
      3; 3; 3; 3 ]
    WHITE tt.

Definition conn3 : GtpConnection unit := mkConn 0 0 board3.

(** A 4x4 board, rows at 6..9, 11..14, 16..19, 21..24.  Black has just
    played at point 6; White holds 7 and 8; Black holds 9. *)
Definition board4 : GoBoard unit :=
  mkBoard 4 5 31
    [ 3; 3; 3; 3; 3; 3;
      1; 2; 2; 1; 3;
      0; 0; 0; 0; 3;
      0; 0; 0; 0; 3;
      0; 0; 0; 0; 3;
      3; 3; 3; 3; 3 ]
    WHITE tt.

Definition conn4 : GtpConnection unit := mkConn 0 0 board4.

(** A pair flanked by the mover's stones on both sides is taken. *)
Example capture_between_stones :
  capture_stones conn4 6 BLACK
  = Returned (mkConn 0 2 (set_cell (set_cell board4 7 EMPTY) 8 EMPTY)).
Proof. vm_compute. reflexivity. Qed.

(** C2.  On [board3] the two white stones at 6 and 7 lie between the black
    stone just played at 5 and the border cell 8.  The capture pass leaves
    the board and both scores as they were: the border test compares the
    truth value of [_is_on_board] with [BORDER], which never holds. *)
Theorem capture_against_border_missed :
  get_color board3 6 = opponent BLACK /\
  get_color board3 7 = opponent BLACK /\
  get_color board3 8 = BORDER /\
  capture_stones conn3 5 BLACK = Returned conn3.
Proof. vm_compute. repeat split; reflexivity. Qed.

(** A 25x25 board ([NS = 26], 703 cells, row [r] at [26 r + 1 .. 26 r + 25]),
    the largest size [move_to_coord] accepts.  White holds X1, Y1 (points 49,
    50) and Z2, Z3 (77, 103); Black holds W1 (48) and Z4 (129) and has just
    played Z1 (51). *)
Definition cell25 (i : Z) : Z :=
  let row := i / 26 in
  let col := i mod 26 in
  if (1 <=? row) && (row <=? 25) && (1 <=? col) && (col <=? 25) then
    if (i =? 49) || (i =? 50) || (i =? 77) || (i =? 103) then WHITE
    else if (i =? 48) || (i =? 129) || (i =? 51) then BLACK
    else EMPTY
  else BORDER.

Definition board25 : GoBoard unit :=
  mkBoard 25 26 703 (map (fun n => cell25 (Z.of_nat n)) (seq 0 703)) WHITE tt.

Definition conn25 : GtpConnection unit := mkConn 0 0 board25.

(** C7.  On [board25] the move at Z1 takes Y1 and X1 in the second
    direction and then meets Z2, Z3 in the third; [format_point] rejects
    column 25, the exception leaves [capture_stones] before the score is
    updated, and two cells have been emptied for a score change of 0. *)
Theorem capture_aborted_after_first_pair :
  size board25 = MAXSIZE /\
  Z.of_nat (length (board board25)) = maxpoint board25 /\
  format_point (point_to_coord 77 (size board25)) = None /\
  exists self',
    capture_stones conn25 51 BLACK = Raised self' /\
    flipped (board board25) (board (conn_board self')) = 2%nat /\
    get_color (conn_board self') 50 = EMPTY /\
    get_color (conn_board self') 49 = EMPTY /\
    black_score self' = black_score conn25 /\
    white_score self' = white_score conn25.
Proof.
  split; [reflexivity|]. split; [reflexivity|]. split; [reflexivity|].
  eexists. split; [vm_compute; reflexivity|].
  vm_compute. repeat split; reflexivity.
Qed.

Lemma capture_conservation_witness :
  exists self' k,
    capture_stones conn4 6 BLACK = Returned self' /\
    Z.of_nat (flipped (board (conn_board conn4))
                      (board (conn_board self')))
      = score BLACK self' - score BLACK conn4 /\
    score BLACK self' - score BLACK conn4 = 2 * Z.of_nat k /\
    score (opponent BLACK) self' = score (opponent BLACK) conn4.
Proof.
  apply (capture_conservation unit conn4 6 BLACK).
  - left; reflexivity.
  - vm_compute; discriminate.
  - reflexivity.
  - intros p Hp _. simpl in Hp.
    assert (Hn : exists n, p = Z.of_nat n /\ (n < 31)%nat)
      by (exists (Z.to_nat p); lia).
    destruct Hn as (n & -> & Hn).
    do 31 (destruct n as [|n]; [vm_compute; eexists; reflexivity|]).
    lia.
Defined.

Lemma genmove_resign_witness :
  genmove_cmd unit (fun _ => "unknown"%string) (fun _ => []) (fun _ _ _ => true)
              (fun b _ _ => b) (fun _ => 0)
              (mkConn 10 0 board4) "B"
  = Some (Some "resign"%string, mkConn 10 0 board4).
Proof.
  apply (genmove_resign unit (fun _ => "unknown"%string) (fun _ => [])
           (fun _ _ _ => true) (fun b _ _ => b) (fun _ => 0)
           (mkConn 10 0 board4) "B" BLACK).
  - reflexivity.
  - left. split; [reflexivity|]. left. simpl. lia.
Defined.

(** *** What the capture pass may touch *)

Arguments capture_direction {Rest}.
Arguments capture_loop {Rest}.
Arguments _is_on_board {Rest}.
Arguments directions {Rest}.
Arguments NS {Rest}.
Arguments current_player {Rest}.
Arguments rest {Rest}.

(** The connection a call leaves behind, however it ends. *)
Definition final_state {A : Type} (o : outcome A A) : A :=
  match o with
  | Returned a => a
  | Raised a => a
  end.

Definition loop_state {Rest : Type}
    (o : outcome (GtpConnection Rest * list string) (GtpConnection Rest))
    : GtpConnection Rest :=
  match o with
  | Returned acc => fst acc
  | Raised self => self
  end.

(** The truth value of [_is_on_board] is never the colour code of the
    border. *)
Lemma bool_is_not_border (b : bool) : py_bool_eq_int b BORDER = false.
Proof. destruct b; reflexivity. Qed.

(** X3.  One direction of the capture pass does something (changes the
    board, lengthens the capture list or raises) only when the two cells
    after the played point hold the opponent's colour and both the played
    point and the cell behind the pair hold the mover's colour, all four on
    the array.  A border cell, or anything but a stone of the mover, behind
    the pair never captures. *)
Theorem capture_needs_own_stone_behind (Rest : Type) (self : GtpConnection Rest)
    (captured_stones : list string) (point color d : Z) :
  capture_direction point color (self, captured_stones) d
    <> Returned (self, captured_stones) ->
  let b := conn_board self in
  (get_color b (point + d) = opponent color /\
   get_color b (point + 2 * d) = opponent color /\
   get_color b point = color /\
   get_color b (point + 3 * d) = color) /\
  (_is_on_board self point = true /\
   _is_on_board self (point + d) = true /\
   _is_on_board self (point + 2 * d) = true /\
   _is_on_board self (point + 3 * d) = true).
Proof.
  unfold capture_direction.
  replace (point + d - d) with point by lia.
  replace (point + d + d + d) with (point + 3 * d) by lia.
  replace (point + d + d) with (point + 2 * d) by lia.
  rewrite !bool_is_not_border, !orb_false_r.
  destruct (_is_on_board self (point + d)) eqn:H1; simpl; [|congruence].
  destruct (_is_on_board self (point + 2 * d)) eqn:H2; simpl; [|congruence].
  destruct (get_color (conn_board self) (point + d) =? opponent color) eqn:H3;
    simpl; [|congruence].
  destruct (get_color (conn_board self) (point + 2 * d) =? opponent color) eqn:H4;
    simpl; [|congruence].
  destruct (_is_on_board self point) eqn:H5; simpl; [|congruence].
  destruct (_is_on_board self (point + 3 * d)) eqn:H6; simpl; [|congruence].
  destruct (get_color (conn_board self) point =? color) eqn:H7; simpl; [|congruence].
  destruct (get_color (conn_board self) (point + 3 * d) =? color) eqn:H8;
    simpl; [|congruence].
  intros _. apply Z.eqb_eq in H3, H4, H7, H8. auto 10.
Qed.

(** How the connection [st] may differ from the connection [self0] the
    pass for a move at [point] started from. *)
Record capture_frame {Rest : Type} (self0 : GtpConnection Rest) (point color : Z)
    (st : GtpConnection Rest) : Prop := {
  fr_white : white_score st = white_score self0;
  fr_black : black_score st = black_score self0;
  fr_size : size (conn_board st) = size (conn_board self0);
  fr_NS : NS (conn_board st) = NS (conn_board self0);
  fr_maxpoint : maxpoint (conn_board st) = maxpoint (conn_board self0);
  fr_player : current_player (conn_board st) = current_player (conn_board self0);
  fr_rest : rest (conn_board st) = rest (conn_board self0);
  fr_length : length (board (conn_board st)) = length (board (conn_board self0));
  fr_cells : forall i : nat,
    board (conn_board st) !! i = board (conn_board self0) !! i \/
    (board (conn_board self0) !! i = Some (opponent color) /\
     board (conn_board st) !! i = Some EMPTY);
  fr_point :
    board (conn_board st) !! Z.to_nat point = board (conn_board self0) !! Z.to_nat point
}.

Lemma capture_frame_init {Rest : Type} (self : GtpConnection Rest) (point color : Z) :
  capture_frame self point color self.
Proof. constructor; auto. Qed.

Lemma emptied_cell {Rest : Type} (self0 st : GtpConnection Rest) (point color n : Z) :
  get_color (conn_board st) n = opponent color ->
  (Z.to_nat n < length (board (conn_board st)))%nat ->
  (forall i : nat,
    board (conn_board st) !! i = board (conn_board self0) !! i \/
    (board (conn_board self0) !! i = Some (opponent color) /\
     board (conn_board st) !! i = Some EMPTY)) ->
  forall i : nat,
    <[Z.to_nat n := EMPTY]> (board (conn_board st)) !! i = board (conn_board self0) !! i \/
    (board (conn_board self0) !! i = Some (opponent color) /\
     <[Z.to_nat n := EMPTY]> (board (conn_board st)) !! i = Some EMPTY).
Proof.
  intros Hc Hlt Hcells i.
  destruct (decide (i = Z.to_nat n)) as [-> | Hne].
  - rewrite list_lookup_insert_eq by exact Hlt. right. split; [|reflexivity].
    unfold get_color in Hc.
    destruct (lookup_lt_is_Some_2 _ _ Hlt) as [c Hl]. rewrite Hl in Hc. simpl in Hc.
    subst c. destruct (Hcells (Z.to_nat n)) as [He | [He _]]; congruence.
  - rewrite list_lookup_insert_ne by auto. apply Hcells.
Qed.

Lemma capture_direction_frame {Rest : Type} (self0 : GtpConnection Rest)
    (point color d : Z) (acc : GtpConnection Rest * list string) :
  0 <= point -> d <> 0 ->
  capture_frame self0 point color (fst acc) ->
  capture_frame self0 point color (loop_state (capture_direction point color acc d)).
Proof.
  intros Hp Hd Hfr. destruct acc as [st cap]. simpl in Hfr. unfold capture_direction.
  set (n1 := point + d). set (n2 := n1 + d).
  destruct (_is_on_board st n1 && _is_on_board st n2
            && (get_color (conn_board st) n1 =? opponent color)
            && (get_color (conn_board st) n2 =? opponent color)) eqn:Hguard;
    [| exact Hfr].
  match goal with |- context [if ?g then _ else _] => destruct g end; [| exact Hfr].
  destruct (format_point _); [| exact Hfr].
  destruct (format_point _); [| exact Hfr].
  apply andb_prop in Hguard as [Hguard Hc2].
  apply andb_prop in Hguard as [Hguard Hc1].
  apply andb_prop in Hguard as [Hon1 Hon2].
  apply Z.eqb_eq in Hc1, Hc2.
  unfold _is_on_board in Hon1, Hon2.
  apply andb_prop in Hon1 as [Hon1 _], Hon2 as [Hon2 _].
  apply Z.leb_le in Hon1, Hon2.
  destruct Hfr as [Hw Hb Hsz Hns Hmax Hpl Hrest Hlen Hcells Hpoint].
  assert (H12 : Z.to_nat n1 <> Z.to_nat n2) by (unfold n2; lia).
  constructor; simpl; try assumption.
  - rewrite !length_insert. exact Hlen.
  - intros i.
    destruct (decide (Z.to_nat n1 < length (board (conn_board st)))%nat) as [Hl1 | Hl1];
      [| rewrite (list_insert_ge _ (Z.to_nat n1)) by lia ].
    + destruct (decide (Z.to_nat n2 < length (board (conn_board st)))%nat) as [Hl2 | Hl2];
        [| rewrite (list_insert_ge _ (Z.to_nat n2))
             by (rewrite length_insert; lia);
           apply (emptied_cell self0 st point color n1 Hc1 Hl1 Hcells) ].
      destruct (decide (i = Z.to_nat n2)) as [-> | Hne].
      * rewrite list_lookup_insert_eq by (rewrite length_insert; exact Hl2).
        right. split; [|reflexivity].
        destruct (emptied_cell self0 st point color n2 Hc2 Hl2 Hcells (Z.to_nat n2))
          as [He | [He _]]; [|exact He].
        rewrite list_lookup_insert_eq in He by exact Hl2.
        unfold get_color in Hc2.
        destruct (lookup_lt_is_Some_2 _ _ Hl2) as [c Hl]. rewrite Hl in Hc2.
        simpl in Hc2. subst c.
        destruct (Hcells (Z.to_nat n2)) as [He' | [He' _]]; congruence.
      * rewrite list_lookup_insert_ne by auto.
        apply (emptied_cell self0 st point color n1 Hc1 Hl1 Hcells).
    + destruct (decide (Z.to_nat n2 < length (board (conn_board st)))%nat) as [Hl2 | Hl2];
        [| rewrite (list_insert_ge _ (Z.to_nat n2)) by lia; apply Hcells ].
      apply (emptied_cell self0 st point color n2 Hc2 Hl2 Hcells).
  - rewrite !list_lookup_insert_ne by (unfold n2, n1 in *; lia). exact Hpoint.
Qed.

Lemma capture_loop_frame {Rest : Type} (self0 : GtpConnection Rest)
    (point color : Z) (ds : list Z) :
  0 <= point -> Forall (fun d => d <> 0) ds ->
  forall acc, capture_frame self0 point color (fst acc) ->
  capture_frame self0 point color (loop_state (capture_loop point color ds acc)).
Proof.
  intros Hp Hds. induction Hds as [|d ds Hd _ IH]; intros acc Hfr; simpl.
  - exact Hfr.
  - pose proof (capture_direction_frame self0 point color d acc Hp Hd Hfr) as H.
    destruct (capture_direction point color acc d) as [acc' | st]; simpl in *.
    + apply IH, H.
    + exact H.
Qed.

(** X4.  However the capture pass for a move at [point] ends, by
    returning or by an exception, it has left the board's size, shape,
    side to move and array length alone, has changed no cell except from
    the opponent's colour to [EMPTY], has not touched the played point,
    has lowered no score and has left alone the score of any colour but
    the mover's. *)
Theorem capture_pass_frame (Rest : Type) (self : GtpConnection Rest) (point color : Z) :
  2 <= NS (conn_board self) -> 0 <= point ->
  let self' := final_state (capture_stones self point color) in
  size (conn_board self') = size (conn_board self) /\
  NS (conn_board self') = NS (conn_board self) /\
  maxpoint (conn_board self') = maxpoint (conn_board self) /\
  current_player (conn_board self') = current_player (conn_board self) /\
  rest (conn_board self') = rest (conn_board self) /\
  length (board (conn_board self')) = length (board (conn_board self)) /\
  (forall i : nat,
     board (conn_board self') !! i = board (conn_board self) !! i \/
     (board (conn_board self) !! i = Some (opponent color) /\
      board (conn_board self') !! i = Some EMPTY)) /\
  board (conn_board self') !! Z.to_nat point = board (conn_board self) !! Z.to_nat point /\
  white_score self <= white_score self' /\
  black_score self <= black_score self' /\
  (color <> WHITE -> white_score self' = white_score self) /\
  (color <> BLACK -> black_score self' = black_score self).
Proof.
  intros Hns Hp.
  pose proof (capture_loop_frame self point color (directions self) Hp
                (directions_nonzero Rest self Hns) (self, [])
                (capture_frame_init self point color)) as Hfr.
  unfold capture_stones.
  destruct (capture_loop point color (directions self) (self, [])) as [[st cap] | st];
    simpl in Hfr; destruct Hfr as [Hw Hb Hsz Hn Hmax Hpl Hrest Hlen Hcells Hpoint].
  - destruct (color =? BLACK) eqn:Hcb; [| destruct (color =? WHITE) eqn:Hcw]; simpl;
      repeat split; try assumption; try lia;
      try (apply Z.eqb_eq in Hcb); try (apply Z.eqb_eq in Hcw);
      try (apply Z.eqb_neq in Hcb); try (apply Z.eqb_neq in Hcw);
      unfold BLACK, WHITE in *; intros; try lia.
  - simpl. repeat split; try assumption; intros; lia.
Qed.

Lemma capture_needs_own_stone_behind_witness :
  let b := conn_board conn4 in
  (get_color b (6 + 1) = opponent BLACK /\
   get_color b (6 + 2 * 1) = opponent BLACK /\
   get_color b 6 = BLACK /\
   get_color b (6 + 3 * 1) = BLACK) /\
  (_is_on_board conn4 6 = true /\
   _is_on_board conn4 (6 + 1) = true /\
   _is_on_board conn4 (6 + 2 * 1) = true /\
   _is_on_board conn4 (6 + 3 * 1) = true).
Proof.
  apply (capture_needs_own_stone_behind unit conn4 [] 6 BLACK 1).
  vm_compute. intros H. discriminate H.
Defined.

Lemma capture_pass_frame_witness :
  let self' := final_state (capture_stones conn25 51 BLACK) in
  length (board (conn_board self')) = length (board (conn_board conn25)) /\
  board (conn_board self') !! Z.to_nat 51 = board (conn_board conn25) !! Z.to_nat 51 /\
  white_score self' = white_score conn25.
Proof.
  destruct (capture_pass_frame unit conn25 51 BLACK)
    as (_ & _ & _ & _ & _ & Hlen & _ & Hpoint & _ & _ & Hwhite & _).
  - vm_compute. discriminate.
  - lia.
  - split; [exact Hlen|]. split; [exact Hpoint|]. apply Hwhite. discriminate.
Defined.

(** *** Reading a point: [int], [move_to_coord], [__wrongCoordErr] *)

(** Exceptions that carry what the commands report of them. *)
Inductive exn : Type :=
  | KeyError (key : string)
  | ValueError (msg : string).

(** [int(s)] on ASCII text; [None] is the [ValueError].  Surrounding
    white space is dropped (tab, line feed, vertical tab, form feed,
    carriage return and blank, the characters of C's [isspace]; the
    separators 28 to 31 that [str.strip] drops are not among them), one
    sign is allowed, and the digits may be grouped by single underscores.
    More digits than [sys.int_max_str_digits] are refused. *)
Definition is_space (c : ascii) : bool :=
  let n := nat_of_ascii c in
  ((9 <=? n) && (n <=? 13) || (n =? 32))%nat.

Definition is_digit (c : ascii) : bool :=
  let n := nat_of_ascii c in ((48 <=? n) && (n <=? 57))%nat.

Definition digit_value (c : ascii) : Z := Z.of_nat (nat_of_ascii c - 48).

Fixpoint lstrip (s : string) : string :=
  match s with
  | String c s' => if is_space c then lstrip s' else s
  | EmptyString => EmptyString
  end.

Fixpoint rstrip (s : string) : string :=
  match s with
  | EmptyString => EmptyString
  | String c s' =>
      match rstrip s' with
      | EmptyString => if is_space c then EmptyString else String c EmptyString
      | t => String c t
      end
  end.

Definition strip (s : string) : string := rstrip (lstrip s).

Fixpoint py_digits (s : string) (acc : Z) (after_digit : bool) : option Z :=
  match s with
  | EmptyString => if after_digit then Some acc else None
  | String c s' =>
      if is_digit c then py_digits s' (10 * acc + digit_value c) true
      else if Ascii.eqb c "_" && after_digit then py_digits s' acc false
      else None
  end.

(** The number of digit characters of a text. *)
Fixpoint digit_count (s : string) : Z :=
  match s with
  | EmptyString => 0
  | String c s' => (if is_digit c then 1 else 0) + digit_count s'
  end.

(** [sys.int_max_str_digits], at the value the interpreter starts with. *)
Definition int_max_str_digits : Z := 4300.

(** The digits after the sign. *)
Definition py_number (r : string) : option Z :=
  if int_max_str_digits <? digit_count r then None else py_digits r 0 false.

Definition py_int (s : string) : option Z :=
  match strip s with
  | String "+" r => py_number r
  | String "-" r => option_map Z.opp (py_number r)
  | t => py_number t
  end.

(** The part [move_to_coord] and [__wrongCoordErr] share: the column from
    the (lower-cased) first character, the row from the rest; [None] where
    either raises or gives up. *)
Definition read_coord (col_c : ascii) (row_text : string) : option (Z * Z) :=
  let n := nat_of_ascii col_c in
  if negb ((97 <=? n) && (n <=? 122))%nat || (n =? 105)%nat then None
  else
    let col := Z.of_nat n - 97 in
    let col := if (n <? 105)%nat then col + 1 else col in
    match py_int row_text with
    | None => None
    | Some row => if row <? 1 then None else Some (row, col)
    end.

Definition quoted (s : string) : string := ("'" ++ s ++ "'")%string.

(** [move_to_coord(point_str, board_size)] *)
Definition move_to_coord (point_str : string) (board_size : Z)
    : outcome (Z * Z) exn :=
  if negb ((2 <=? board_size) && (board_size <=? MAXSIZE))
  then Raised (ValueError "board_size out of range")
  else
    let s := lower point_str in
    if String.eqb s "pass" then Returned (PASS, PASS)
    else
      match s with
      | EmptyString => Raised (ValueError ("invalid point: " ++ quoted s))
      | String col_c row_text =>
          match read_coord col_c row_text with
          | None => Raised (ValueError ("invalid point: " ++ quoted s))
          | Some (row, col) =>
              if negb ((col <=? board_size) && (row <=? board_size))
              then Raised (ValueError ("point off board: " ++ quoted s))
              else Returned (row, col)
          end
      end.

(** [__wrongCoordErr(args)] with [args[1] = arg1] on a board of size
    [board_size]; [None] is the answer [True]. *)
Definition wrongCoordErr (board_size : Z) (arg1 : string) : option (Z * Z) :=
  let move := lower arg1 in
  if (String.length move <? 2)%nat then None
  else
    match arg1 with
    | EmptyString => None
    | String c row =>
        match read_coord (lower_char c) row with
        | None => None
        | Some (row, col) =>
            if negb ((col <=? board_size) && (row <=? board_size)) then None
            else Some (row, col)
        end
    end.


(** Lower-casing leaves alone everything [int] looks at. *)
Lemma lower_char_space (c : ascii) : is_space (lower_char c) = is_space c.
Proof. destruct c as [[] [] [] [] [] [] [] []]; reflexivity. Qed.

Lemma lower_char_digit (c : ascii) : is_digit (lower_char c) = is_digit c.
Proof. destruct c as [[] [] [] [] [] [] [] []]; reflexivity. Qed.

Lemma lower_char_digit_value (c : ascii) :
  is_digit c = true -> digit_value (lower_char c) = digit_value c.
Proof. destruct c as [[] [] [] [] [] [] [] []]; intros H; try discriminate H; reflexivity. Qed.

Lemma lower_char_eqb (c d : ascii) :
  lower_char d = d -> (forall e, lower_char e = d -> e = d) ->
  Ascii.eqb (lower_char c) d = Ascii.eqb c d.
Proof.
  intros Hd Hinj. destruct (Ascii.eqb c d) eqn:Hcd.
  - apply Ascii.eqb_eq in Hcd. subst. rewrite Hd. apply Ascii.eqb_refl.
  - apply Ascii.eqb_neq. intros H. apply Hinj in H. subst.
    rewrite Ascii.eqb_refl in Hcd. discriminate.
Qed.

Lemma lower_char_only (d : ascii) :
  (d = "_" \/ d = "+" \/ d = "-")%char ->
  lower_char d = d /\ forall e, lower_char e = d -> e = d.
Proof.
  intros [-> | [-> | ->]]; (split; [reflexivity|]);
    intros e; destruct e as [[] [] [] [] [] [] [] []]; intros H;
    try reflexivity; discriminate H.
Qed.

Lemma lower_lstrip (s : string) : lstrip (lower s) = lower (lstrip s).
Proof.
  induction s as [|c s IH]; simpl; [reflexivity|].
  rewrite lower_char_space. destruct (is_space c); [exact IH | reflexivity].
Qed.

Lemma lower_rstrip (s : string) : rstrip (lower s) = lower (rstrip s).
Proof.
  induction s as [|c s IH]; simpl; [reflexivity|].
  rewrite IH, lower_char_space.
  destruct (rstrip s); simpl; [destruct (is_space c)|]; reflexivity.
Qed.

Lemma lower_digits (s : string) :
  forall acc after, py_digits (lower s) acc after = py_digits s acc after.
Proof.
  induction s as [|c s IH]; intros acc after; simpl; [reflexivity|].
  rewrite lower_char_digit.
  destruct (is_digit c) eqn:Hd.
  - rewrite lower_char_digit_value by exact Hd. apply IH.
  - destruct (lower_char_only "_"%char ltac:(auto)) as [H1 H2].
    rewrite (lower_char_eqb c "_" H1 H2).
    destruct (Ascii.eqb c "_" && after); [apply IH | reflexivity].
Qed.

Lemma lower_digit_count (s : string) : digit_count (lower s) = digit_count s.
Proof.
  induction s as [|c s IH]; simpl; [reflexivity|].
  rewrite lower_char_digit, IH. reflexivity.
Qed.

Lemma lower_number (s : string) : py_number (lower s) = py_number s.
Proof. unfold py_number. rewrite lower_digit_count, lower_digits. reflexivity. Qed.

Lemma lower_int (s : string) : py_int (lower s) = py_int s.
Proof.
  unfold py_int, strip. rewrite lower_lstrip, lower_rstrip.
  destruct (rstrip (lstrip s)) as [|c r]; [reflexivity|].
  change (lower (String c r)) with (String (lower_char c) (lower r)).
  destruct (lower_char_only "+"%char ltac:(auto)) as [Hp1 Hp2].
  destruct (lower_char_only "-"%char ltac:(auto)) as [Hm1 Hm2].
  destruct (Ascii.eqb c "+") eqn:Hplus.
  { apply Ascii.eqb_eq in Hplus. subst c.
    change (py_number (lower r) = py_number r). apply lower_number. }
  destruct (Ascii.eqb c "-") eqn:Hminus.
  { apply Ascii.eqb_eq in Hminus. subst c.
    change (option_map Z.opp (py_number (lower r)) = option_map Z.opp (py_number r)).
    rewrite lower_number. reflexivity. }
  assert (Hlp : Ascii.eqb (lower_char c) "+" = false)
    by (rewrite (lower_char_eqb c "+" Hp1 Hp2); exact Hplus).
  assert (Hlm : Ascii.eqb (lower_char c) "-" = false)
    by (rewrite (lower_char_eqb c "-" Hm1 Hm2); exact Hminus).
  assert (Hgen : forall (d : ascii) (t : string),
            Ascii.eqb d "+" = false -> Ascii.eqb d "-" = false ->
            match String d t with
            | String "+" r0 => py_number r0
            | String "-" r0 => option_map Z.opp (py_number r0)
            | u => py_number u
            end = py_number (String d t)).
  { intros d t H1 H2.
    destruct d as [[] [] [] [] [] [] [] []]; try reflexivity; discriminate. }
  rewrite (Hgen _ _ Hlp Hlm), (Hgen _ _ Hplus Hminus).
  apply (lower_number (String c r)).
Qed.

Lemma lower_idem_char (c : ascii) : lower_char (lower_char c) = lower_char c.
Proof. destruct c as [[] [] [] [] [] [] [] []]; reflexivity. Qed.

Lemma read_coord_col (col_c : ascii) (row_text : string) (row col : Z) :
  read_coord col_c row_text = Some (row, col) -> 1 <= row /\ 1 <= col <= 25.
Proof.
  unfold read_coord.
  destruct (negb _ || _) eqn:Hc; [discriminate|].
  apply orb_false_elim in Hc as [Hc1 Hc2]. apply negb_false_iff in Hc1.
  apply andb_prop in Hc1 as [Ha Hz].
  apply Nat.leb_le in Ha, Hz. apply Nat.eqb_neq in Hc2.
  destruct (py_int row_text) as [r|]; [|discriminate].
  destruct (r <? 1) eqn:Hr; [discriminate|]. apply Z.ltb_ge in Hr.
  intros H. injection H as <- <-.
  destruct (nat_of_ascii col_c <? 105)%nat eqn:Hi;
    [apply Nat.ltb_lt in Hi | apply Nat.ltb_ge in Hi]; lia.
Qed.

(** X6.  On a board of a size [move_to_coord] accepts, the two readers of
    a point agree on every text but the pass text: what
    [__wrongCoordErr] accepts, [move_to_coord] returns, with row and column
    between 1 and the board size; what it rejects, [move_to_coord] raises
    on.  The pass text (in any case) is read by [move_to_coord] as the pass
    move and rejected by [__wrongCoordErr]. *)
Theorem point_readers_agree (board_size : Z) (arg1 : string) :
  2 <= board_size <= MAXSIZE ->
  (lower arg1 = "pass"%string ->
   wrongCoordErr board_size arg1 = None /\
   move_to_coord arg1 board_size = Returned (PASS, PASS)) /\
  (lower arg1 <> "pass"%string ->
   match wrongCoordErr board_size arg1 with
   | Some (row, col) =>
       move_to_coord arg1 board_size = Returned (row, col) /\
       1 <= row <= board_size /\ 1 <= col <= board_size
   | None => exists msg, move_to_coord arg1 board_size = Raised (ValueError msg)
   end).
Proof.
  intros Hsize.
  assert (Hrange : negb ((2 <=? board_size) && (board_size <=? MAXSIZE)) = false).
  { apply negb_false_iff, andb_true_intro. split; [apply Z.leb_le | apply Z.leb_le]; lia. }
  unfold move_to_coord. rewrite Hrange. split.
  - intros Hpass. split; [| rewrite Hpass; reflexivity].
    destruct arg1 as [|c row]; [discriminate|].
    change (lower (String c row)) with (String (lower_char c) (lower row)) in Hpass.
    injection Hpass as Hc Hrow.
    unfold wrongCoordErr.
    change (lower (String c row)) with (String (lower_char c) (lower row)).
    rewrite Hc, Hrow. unfold read_coord. rewrite <- (lower_int row), Hrow.
    reflexivity.
  - intros Hnot. apply String.eqb_neq in Hnot. rewrite Hnot.
    unfold wrongCoordErr.
    destruct arg1 as [|c row]; [simpl; eauto|].
    change (lower (String c row)) with (String (lower_char c) (lower row)).
    assert (Hsame : read_coord (lower_char c) (lower row) = read_coord (lower_char c) row).
    { unfold read_coord. rewrite lower_int. reflexivity. }
    cbv iota. rewrite Hsame.
    destruct (String.length (String (lower_char c) (lower row)) <? 2)%nat eqn:Hlen.
    + destruct row as [|d row]; [|discriminate].
      unfold read_coord. destruct (negb _ || _); simpl; eauto.
    + destruct (read_coord (lower_char c) row) as [[r cl]|] eqn:Hread; [|eauto].
      destruct (negb ((cl <=? board_size) && (r <=? board_size))) eqn:Hon; [eauto|].
      split; [reflexivity|].
      apply negb_false_iff in Hon. apply andb_prop in Hon as [H1 H2].
      apply Z.leb_le in H1, H2.
      destruct (read_coord_col _ _ _ _ Hread). lia.
Qed.

Definition reads_back (row col : Z) : bool :=
  match format_point (row, col) with
  | Some (String c t) =>
      negb (String.eqb (lower (String c t)) "pass") &&
      match read_coord (lower_char c) (lower t) with
      | Some (r, cl) => (r =? row) && (cl =? col)
      | None => false
      end
  | _ => false
  end.

Lemma reads_back_all :
  forallb (fun r => forallb (fun c => reads_back (Z.of_nat r) (Z.of_nat c)) (seq 1 24))
          (seq 1 24) = true.
Proof. vm_compute. reflexivity. Qed.

(** X5.  Writing a point and reading it back: for a row and a column
    between 1 and the board size, and below [MAXSIZE], [format_point] gives
    a text that [move_to_coord] reads as the same row and column. *)
Theorem format_then_read (row col board_size : Z) :
  2 <= board_size <= MAXSIZE ->
  1 <= row <= board_size -> row < MAXSIZE ->
  1 <= col <= board_size -> col < MAXSIZE ->
  exists text,
    format_point (row, col) = Some text /\
    move_to_coord text board_size = Returned (row, col).
Proof.
  intros Hsize Hrow Hrow' Hcol Hcol'. unfold MAXSIZE in *.
  pose proof reads_back_all as Hall.
  rewrite forallb_forall in Hall.
  specialize (Hall (Z.to_nat row) ltac:(apply in_seq; lia)).
  rewrite forallb_forall in Hall.
  specialize (Hall (Z.to_nat col) ltac:(apply in_seq; lia)).
  rewrite !Z2Nat.id in Hall by lia.
  unfold reads_back in Hall.
  destruct (format_point (row, col)) as [[|c t]|]; try discriminate.
  exists (String c t). split; [reflexivity|].
  apply andb_prop in Hall as [Hpass Hread]. apply negb_true_iff in Hpass.
  unfold move_to_coord, MAXSIZE.
  replace (negb ((2 <=? board_size) && (board_size <=? 25))) with false
    by (symmetry; apply negb_false_iff, andb_true_intro;
        split; apply Z.leb_le; lia).
  rewrite Hpass.
  change (lower (String c t)) with (String (lower_char c) (lower t)).
  cbv iota.
  destruct (read_coord (lower_char c) (lower t)) as [[r cl]|]; [|discriminate].
  apply andb_prop in Hread as [Hr Hc]. apply Z.eqb_eq in Hr, Hc. subst r cl.
  replace (negb ((col <=? board_size) && (row <=? board_size))) with false
    by (symmetry; apply negb_false_iff, andb_true_intro;
        split; apply Z.leb_le; lia).
  reflexivity.
Qed.

Lemma format_then_read_witness :
  exists text,
    format_point (7, 9) = Some text /\
    move_to_coord text 9 = Returned (7, 9).
Proof.
  apply (format_then_read 7 9 9); unfold MAXSIZE; lia.
Defined.

Lemma point_readers_agree_witness :
  (lower "PASS" = "pass"%string ->
   wrongCoordErr 7 "PASS" = None /\
   move_to_coord "PASS" 7 = Returned (PASS, PASS)) /\
  match wrongCoordErr 7 "C5" with
  | Some (row, col) =>
      move_to_coord "C5" 7 = Returned (row, col) /\
      1 <= row <= 7 /\ 1 <= col <= 7
  | None => exists msg, move_to_coord "C5" 7 = Raised (ValueError msg)
  end.
Proof.
  split.
  - apply (point_readers_agree 7 "PASS"). unfold MAXSIZE. lia.
  - apply (point_readers_agree 7 "C5"); [unfold MAXSIZE; lia | discriminate].
Defined.


(** *** The commands [play], [gogui-rules_final_result] and
    [gogui-rules_legal_moves] *)

(** What a command hands to [respond]: a text, or, from the [except]
    clause of [play_cmd], ["Error: "] followed by [str(e)]. *)
Inductive reply : Type :=
  | Respond (text : string)
  | RespondError (e : exn).

Definition dquote : string := String (ascii_of_nat 34) EmptyString.

(** ['illegal move: "{} {}" <why>'.format(a, b)] *)
Definition illegal_move (a b why : string) : string :=
  ("illegal move: " ++ dquote ++ a ++ " " ++ b ++ dquote ++ " " ++ why)%string.

(** [x[0]] as a sort key: the code of the first character. *)
Definition first_code (x : string) : nat :=
  match x with
  | String c _ => nat_of_ascii c
  | EmptyString => 0%nat
  end.

(** [list.sort(key=lambda x: x[0])].  The sort is stable, so the list it
    leaves is the one insertion after the last entry with no larger key
    leaves. *)
Fixpoint insert_by_key (x : string) (l : list string) : list string :=
  match l with
  | [] => [x]
  | y :: l' =>
      if (first_code x <? first_code y)%nat then x :: y :: l'
      else y :: insert_by_key x l'
  end.

Definition sort_by_first (l : list string) : list string :=
  fold_left (fun acc x => insert_by_key x acc) l [].

(** [sep.join(l)] *)
Fixpoint join (sep : string) (l : list string) : string :=
  match l with
  | [] => EmptyString
  | [x] => x
  | x :: l' => (x ++ sep ++ join sep l')%string
  end.

(** [[f(x) for x in l]] where [f] may raise. *)
Fixpoint map_raising {A B : Type} (f : A -> option B) (l : list A) : option (list B) :=
  match l with
  | [] => Some []
  | x :: l' =>
      match f x with
      | None => None
      | Some y =>
          match map_raising f l' with
          | None => None
          | Some ys => Some (y :: ys)
          end
      end
  end.

Section Commands.

Variable Rest : Type.

(** Absent from the sources: methods of [GoBoard] ([play_move] with the
    truth value it returns) and [coord_to_point] of [board_base]. *)
Variable result : GoBoard Rest -> string.
Variable get_empty_points : GoBoard Rest -> list Z.
Variable is_legal : GoBoard Rest -> Z -> Z -> bool.
Variable play_move : GoBoard Rest -> Z -> Z -> bool * GoBoard Rest.
Variable coord_to_point : Z -> Z -> Z -> Z.

(** [play_cmd(args)] with [args = [args0, args1]].  Every exception is
    caught by the command itself.  The debug message is built but not
    written. *)
Definition play_cmd (self : GtpConnection Rest) (args0 args1 : string)
    : reply * GtpConnection Rest :=
  let board_color := lower args0 in
  let board_move := args1 in
  match color_to_int board_color with
  | None => (RespondError (KeyError board_color), self)
  | Some color =>
      if negb (String.eqb board_color "b") && negb (String.eqb board_color "w")
      then (Respond (illegal_move board_color board_move "wrong colour"), self)
      else
        match wrongCoordErr (size (conn_board self)) args1 with
        | None => (Respond (illegal_move args0 args1 "wrong coordinate"), self)
        | Some coords =>
            let move :=
              coord_to_point (fst coords) (snd coords) (size (conn_board self)) in
            if negb (existsb (Z.eqb move) (get_empty_points (conn_board self)))
            then (Respond (illegal_move args0 args1 "occupied"), self)
            else
              match move_to_coord args1 (size (conn_board self)) with
              | Raised e => (RespondError e, self)
              | Returned coord =>
                  let move :=
                    coord_to_point (fst coord) (snd coord) (size (conn_board self)) in
                  let '(ok, b') := play_move (conn_board self) move color in
                  let self1 := mkConn (white_score self) (black_score self) b' in
                  if negb ok
                  then (Respond ("Illegal Move: " ++ board_move)%string, self1)
                  else
                    match capture_stones self1 move color with
                    | Raised self2 => (RespondError (ValueError EmptyString), self2)
                    | Returned self2 => (Respond EmptyString, self2)
                    end
              end
        end
  end.

(** [gogui_rules_final_result_cmd] *)
Definition gogui_rules_final_result_cmd (self : GtpConnection Rest) : string :=
  if 10 <=? white_score self then "white"%string
  else if 10 <=? black_score self then "black"%string
  else result (conn_board self).

(** The list [legalMoves] of [gogui_rules_legal_moves_cmd] before it is
    sorted; [None] is an exception out of [format_point]. *)
Definition legal_move_texts (self : GtpConnection Rest) : option (list string) :=
  let currentPlayer := current_player (conn_board self) in
  map_raising
    (fun point => format_point (point_to_coord point (size (conn_board self))))
    (List.filter (fun point => is_legal (conn_board self) point currentPlayer)
                 (get_empty_points (conn_board self))).

(** [gogui_rules_legal_moves_cmd]: the text handed to [respond]; [None] is
    an exception escaping the command. *)
Definition gogui_rules_legal_moves_cmd (self : GtpConnection Rest) : option string :=
  let result := result (conn_board self) in
  if String.eqb result "draw" || String.eqb result "white" || String.eqb result "black"
  then Some EmptyString
  else if (10 <=? white_score self) || (10 <=? black_score self)
  then Some EmptyString
  else
    match legal_move_texts self with
    | None => None
    | Some legalMoves =>
        if existsb (String.eqb EmptyString) legalMoves then None
        else Some (join " " (sort_by_first legalMoves))
    end.

(** X7.  [play_cmd] looks the colour up before it tests it: for a colour
    other than b or w (in either case) it changes nothing, and it gives the
    wrong-colour answer only for the colour e; for any other text the
    lookup fails and the answer is the error answer for that key. *)
Theorem play_unknown_colour (self : GtpConnection Rest) (args0 args1 : string) :
  lower args0 <> "b"%string -> lower args0 <> "w"%string ->
  play_cmd self args0 args1 =
    (if String.eqb (lower args0) "e"
     then Respond (illegal_move (lower args0) args1 "wrong colour")
     else RespondError (KeyError (lower args0)),
     self).
Proof.
  intros Hb Hw. unfold play_cmd, color_to_int.
  apply String.eqb_neq in Hb, Hw. rewrite Hb, Hw.
  destruct (String.eqb (lower args0) "e"); [reflexivity|].
  destruct (String.eqb (lower args0) "BORDER") eqn:Hbd; [|reflexivity].
  apply String.eqb_eq in Hbd. destruct args0 as [|c s]; [discriminate|].
  simpl in Hbd. injection Hbd as Hc _.
  destruct c as [[] [] [] [] [] [] [] []]; discriminate Hc.
Qed.

(** X8.  [play_cmd] leaves the connection as it was unless the colour is b
    or w, the move text reads as a row and a column between 1 and the board
    size, and the point of that row and column is among the board's empty
    points. *)
Theorem play_changes_only_on_empty_point (self self' : GtpConnection Rest)
    (args0 args1 : string) (r : reply) :
  play_cmd self args0 args1 = (r, self') ->
  self' <> self ->
  (lower args0 = "b"%string \/ lower args0 = "w"%string) /\
  exists row col,
    wrongCoordErr (size (conn_board self)) args1 = Some (row, col) /\
    1 <= row <= size (conn_board self) /\
    1 <= col <= size (conn_board self) /\
    In (coord_to_point row col (size (conn_board self)))
       (get_empty_points (conn_board self)).
Proof.
  unfold play_cmd. intros H Hne.
  destruct (color_to_int (lower args0)) as [color|];
    [| injection H as _ <-; contradiction].
  destruct (String.eqb (lower args0) "b") eqn:Hb;
    [| destruct (String.eqb (lower args0) "w") eqn:Hw;
       [| injection H as _ <-; contradiction]].
  all: simpl in H.
  all: destruct (wrongCoordErr (size (conn_board self)) args1) as [[row col]|] eqn:Hc;
    [| injection H as _ <-; contradiction].
  all: simpl in H.
  all: destruct (existsb _ _) eqn:Hex; simpl in H;
    [| injection H as _ <-; contradiction].
  all: split; [first [left; apply String.eqb_eq; assumption
                     | right; apply String.eqb_eq; assumption]|].
  all: exists row, col; split; [reflexivity|].
  all: apply existsb_exists in Hex; destruct Hex as (p & Hin & Hp);
    apply Z.eqb_eq in Hp; subst p.
  all: unfold wrongCoordErr in Hc.
  all: destruct (String.length (lower args1) <? 2)%nat; [discriminate|].
  all: destruct args1 as [|c rowt]; [discriminate|].
  all: destruct (read_coord (lower_char c) rowt) as [[rw cl]|] eqn:Hread; [|discriminate].
  all: destruct (negb ((cl <=? size (conn_board self)) && (rw <=? size (conn_board self))))
         eqn:Hon; [discriminate|].
  all: injection Hc as <- <-.
  all: apply negb_false_iff in Hon; apply andb_prop in Hon as [H1 H2];
    apply Z.leb_le in H1, H2.
  all: destruct (read_coord_col _ _ _ _ Hread).
  all: repeat split; try lia; exact Hin.
Qed.

(** X9.  Once [gogui-rules_final_result] names a winner or a draw,
    [gogui-rules_legal_moves] answers with no move at all. *)
Theorem no_legal_moves_once_decided (self : GtpConnection Rest) :
  gogui_rules_final_result_cmd self = "white"%string \/
  gogui_rules_final_result_cmd self = "black"%string \/
  gogui_rules_final_result_cmd self = "draw"%string ->
  gogui_rules_legal_moves_cmd self = Some EmptyString.
Proof.
  unfold gogui_rules_final_result_cmd, gogui_rules_legal_moves_cmd.
  destruct (10 <=? white_score self); simpl.
  { intros _. destruct (_ || _ || _); reflexivity. }
  destruct (10 <=? black_score self); simpl.
  { intros _. destruct (_ || _ || _); reflexivity. }
  intros [-> | [-> | ->]]; reflexivity.
Qed.

End Commands.

Arguments play_cmd {Rest}.
Arguments gogui_rules_final_result_cmd {Rest}.
Arguments gogui_rules_legal_moves_cmd {Rest}.
Arguments legal_move_texts {Rest}.

Lemma insert_by_key_perm (x : string) (l : list string) :
  Permutation (insert_by_key x l) (x :: l).
Proof.
  induction l as [|y l IH]; simpl; [reflexivity|].
  destruct (first_code x <? first_code y)%nat; [reflexivity|].
  rewrite IH. apply perm_swap.
Qed.

Definition key_le (a b : string) : Prop := (first_code a <= first_code b)%nat.

Lemma insert_by_key_sorted (x : string) (l : list string) :
  StronglySorted key_le l -> StronglySorted key_le (insert_by_key x l).
Proof.
  induction 1 as [|y l Hs IH Hall]; simpl.
  - constructor; constructor.
  - destruct (first_code x <? first_code y)%nat eqn:Hlt.
    + apply Nat.ltb_lt in Hlt. constructor; [constructor; assumption|].
      constructor; [unfold key_le; lia|].
      eapply Forall_impl; [exact Hall|]. unfold key_le. intros z Hz. simpl in *. lia.
    + apply Nat.ltb_ge in Hlt. constructor; [exact IH|].
      rewrite (Forall_forall). intros z Hz.
      apply list_elem_of_In in Hz.
      apply (Permutation_in _ (insert_by_key_perm x l)) in Hz.
      destruct Hz as [<- | Hz]; [exact Hlt|].
      rewrite Forall_forall in Hall. apply Hall, list_elem_of_In, Hz.
Qed.

Lemma sort_by_first_spec (l : list string) :
  Permutation (sort_by_first l) l /\ StronglySorted key_le (sort_by_first l).
Proof.
  unfold sort_by_first.
  assert (H : forall acc, StronglySorted key_le acc ->
            Permutation (fold_left (fun acc x => insert_by_key x acc) l acc) (acc ++ l) /\
            StronglySorted key_le (fold_left (fun acc x => insert_by_key x acc) l acc)).
  { induction l as [|x l IH]; intros acc Hacc; simpl.
    - rewrite app_nil_r. split; [reflexivity | exact Hacc].
    - destruct (IH (insert_by_key x acc) (insert_by_key_sorted x acc Hacc)) as [Hp Hs].
      split; [|exact Hs]. rewrite Hp, insert_by_key_perm.
      apply Permutation_cons_app. reflexivity. }
  apply (H []). constructor.
Qed.

(** X10.  While the game is undecided and every legal empty point has a
    text, [gogui-rules_legal_moves] answers with the texts of exactly the
    empty points that are legal for the side to move, joined by blanks and
    ordered by their first character, the column letter. *)
Theorem legal_moves_listed (Rest : Type) (result : GoBoard Rest -> string)
    (get_empty_points : GoBoard Rest -> list Z)
    (is_legal : GoBoard Rest -> Z -> Z -> bool)
    (self : GtpConnection Rest) (texts : list string) :
  gogui_rules_final_result_cmd result self <> "white"%string ->
  gogui_rules_final_result_cmd result self <> "black"%string ->
  gogui_rules_final_result_cmd result self <> "draw"%string ->
  legal_move_texts get_empty_points is_legal self = Some texts ->
  exists listed,
    gogui_rules_legal_moves_cmd result get_empty_points is_legal self
      = Some (join " " listed) /\
    Permutation listed texts /\
    StronglySorted key_le listed.
Proof.
  unfold gogui_rules_final_result_cmd, gogui_rules_legal_moves_cmd.
  intros Hw Hb Hd Htexts.
  destruct (10 <=? white_score self); [congruence|].
  destruct (10 <=? black_score self); [congruence|].
  apply String.eqb_neq in Hw, Hb, Hd. rewrite Hw, Hb, Hd. simpl.
  rewrite Htexts.
  assert (Hne : existsb (String.eqb EmptyString) texts = false).
  { apply not_true_is_false. intros Hex. apply existsb_exists in Hex.
    destruct Hex as (x & Hin & Hx). apply String.eqb_eq in Hx. subst x.
    unfold legal_move_texts in Htexts.
    revert texts Htexts Hin.
    generalize (List.filter
                  (fun point => is_legal (conn_board self) point
                                  (current_player (conn_board self)))
                  (get_empty_points (conn_board self))).
    induction l as [|p l IH]; intros texts Htexts Hin; simpl in Htexts.
    - injection Htexts as <-. contradiction.
    - destruct (format_point _) as [s|] eqn:Hfmt; [|discriminate].
      destruct (map_raising _ l) as [ys|]; [|discriminate].
      injection Htexts as <-. destruct Hin as [Heq | Hin]; [|eapply IH; eauto].
      subst s.
      unfold format_point in Hfmt.
      destruct (_ =? PASS); [discriminate|].
      destruct (point_to_coord p (size (conn_board self))) as [row col].
      destruct (_ || _); [discriminate|].
      destruct (py_string_index _ _); discriminate. }
  exists (sort_by_first texts).
  split; [simpl in Hne; rewrite Hne; reflexivity|]. apply sort_by_first_spec.
Qed.


(** A board's empty points read off its array, a [play_move] that always
    places the stone, and [coord_to_point] as the row-major index. *)
Definition empties_of (b : GoBoard unit) : list Z :=
  List.filter (fun p => get_color b p =? EMPTY)
              (map Z.of_nat (seq 0 (length (board b)))).

Definition place_stone (b : GoBoard unit) (p c : Z) : bool * GoBoard unit :=
  (true, set_cell b p c).

Definition row_major (row col board_size : Z) : Z := row * (board_size + 1) + col.

Lemma play_unknown_colour_witness :
  play_cmd empties_of place_stone row_major conn4 "x" "a1"
    = (RespondError (KeyError "x"), conn4) /\
  play_cmd empties_of place_stone row_major conn4 "E" "a1"
    = (Respond (illegal_move "e" "a1" "wrong colour"), conn4).
Proof.
  split.
  - exact (play_unknown_colour unit empties_of place_stone row_major conn4 "x" "a1"
             ltac:(discriminate) ltac:(discriminate)).
  - exact (play_unknown_colour unit empties_of place_stone row_major conn4 "E" "a1"
             ltac:(discriminate) ltac:(discriminate)).
Defined.

Lemma play_changes_only_on_empty_point_witness :
  snd (play_cmd empties_of place_stone row_major conn4 "B" "b2") <> conn4 /\
  wrongCoordErr (size (conn_board conn4)) "b2" = Some (2, 2) /\
  In (row_major 2 2 4) (empties_of board4).
Proof.
  assert (Hrun : play_cmd empties_of place_stone row_major conn4 "B" "b2"
                 = (fst (play_cmd empties_of place_stone row_major conn4 "B" "b2"),
                    snd (play_cmd empties_of place_stone row_major conn4 "B" "b2")))
    by (vm_compute; reflexivity).
  assert (Hne : snd (play_cmd empties_of place_stone row_major conn4 "B" "b2") <> conn4)
    by (vm_compute; discriminate).
  destruct (play_changes_only_on_empty_point unit empties_of place_stone row_major
              conn4 _ "B" "b2" _ Hrun Hne)
    as (_ & row & col & Hc & _ & _ & Hin).
  split; [exact Hne|]. split; [vm_compute; reflexivity|].
  vm_compute in Hc. injection Hc as <- <-. exact Hin.
Defined.

Lemma no_legal_moves_once_decided_witness :
  gogui_rules_legal_moves_cmd (fun _ => "unknown"%string) empties_of
    (fun _ _ _ => true) (mkConn 10 0 board4) = Some EmptyString.
Proof.
  apply (no_legal_moves_once_decided unit (fun _ => "unknown"%string) empties_of
           (fun _ _ _ => true) (mkConn 10 0 board4)).
  left. reflexivity.
Defined.

Lemma legal_moves_listed_witness :
  exists listed,
    gogui_rules_legal_moves_cmd (fun _ => "unknown"%string) empties_of
      (fun _ p _ => (p <? 13) || (20 <? p)) conn4 = Some (join " " listed) /\
    Permutation listed ["A2"; "B2"; "A4"; "B4"; "C4"; "D4"]%string /\
    StronglySorted key_le listed.
Proof.
  apply (legal_moves_listed unit (fun _ => "unknown"%string) empties_of
           (fun _ p _ => (p <? 13) || (20 <? p)) conn4).
  - discriminate.
  - discriminate.
  - discriminate.
  - vm_compute. reflexivity.
Defined.


(** *** What [genmove] plays *)

(** X11.  With a [choice] that picks from the list it is given, a reply of
    [genmove] other than ["resign"] and ["pass"] is the text of an empty
    point that is legal for the colour asked for; the connection left
    behind is that of the capture pass run after the stone was placed
    there. *)
Theorem genmove_plays_legal_empty_point (Rest : Type)
    (result : GoBoard Rest -> string)
    (get_empty_points : GoBoard Rest -> list Z)
    (is_legal : GoBoard Rest -> Z -> Z -> bool)
    (play_move : GoBoard Rest -> Z -> Z -> GoBoard Rest)
    (choice : list Z -> Z)
    (self self' : GtpConnection Rest) (args0 text : string) (color : Z) :
  (forall l, l <> [] -> In (choice l) l) ->
  color_to_int (lower args0) = Some color ->
  genmove_cmd Rest result get_empty_points is_legal play_move choice self args0
    = Some (Some text, self') ->
  text <> "resign"%string -> text <> "pass"%string ->
  exists move,
    In move (get_empty_points (conn_board self)) /\
    is_legal (conn_board self) move color = true /\
    format_point (point_to_coord move (size (conn_board self))) = Some text /\
    capture_stones
      (mkConn (white_score self) (black_score self)
              (play_move (conn_board self) move color)) move color
      = Returned self'.
Proof.
  intros Hchoice Hc H Hres Hpass. unfold genmove_cmd in H. rewrite Hc in H.
  repeat (match type of H with
          | context [if ?c then Some (Some "resign"%string, self) else _] =>
              destruct c; [injection H as H _; congruence|]
          end).
  destruct (length (get_empty_points (conn_board self)) =? 0)%nat;
    [injection H as H _; congruence|].
  set (legalMoves := List.filter (fun point => is_legal (conn_board self) point color)
                       (get_empty_points (conn_board self))) in *.
  destruct (0 <? length legalMoves)%nat eqn:Hlen; [|discriminate].
  apply Nat.ltb_lt in Hlen.
  assert (Hin : In (choice legalMoves) legalMoves).
  { apply Hchoice. destruct legalMoves; [simpl in Hlen; lia | discriminate]. }
  apply filter_In in Hin. destruct Hin as [Hin Hlegal].
  destruct (format_point _) as [s|] eqn:Hfmt; [|discriminate].
  destruct (capture_stones _ _ _) as [self2|] eqn:Hcap; [|discriminate].
  injection H as -> ->. exists (choice legalMoves). auto.
Qed.

(** X12.  [genmove] gives no answer at all only when the board has empty
    points none of which is legal for the colour asked for; it then leaves
    the connection as it was. *)
Theorem genmove_silent_without_legal_move (Rest : Type)
    (result : GoBoard Rest -> string)
    (get_empty_points : GoBoard Rest -> list Z)
    (is_legal : GoBoard Rest -> Z -> Z -> bool)
    (play_move : GoBoard Rest -> Z -> Z -> GoBoard Rest)
    (choice : list Z -> Z)
    (self self' : GtpConnection Rest) (args0 : string) (color : Z) :
  color_to_int (lower args0) = Some color ->
  genmove_cmd Rest result get_empty_points is_legal play_move choice self args0
    = Some (None, self') ->
  self' = self /\
  get_empty_points (conn_board self) <> [] /\
  forall point, In point (get_empty_points (conn_board self)) ->
    is_legal (conn_board self) point color = false.
Proof.
  intros Hc H. unfold genmove_cmd in H. rewrite Hc in H.
  repeat (match type of H with
          | context [if ?c then Some (Some "resign"%string, self) else _] =>
              destruct c; [discriminate|]
          end).
  destruct (get_empty_points (conn_board self)) as [|p ps] eqn:Hpts; [discriminate|].
  cbn [length Nat.eqb] in H.
  set (legalMoves := List.filter (fun point => is_legal (conn_board self) point color)
                       (p :: ps)) in *.
  destruct (0 <? length legalMoves)%nat eqn:Hlen.
  { destruct (format_point _); [|discriminate].
    destruct (capture_stones _ _ _); discriminate. }
  injection H as <-. split; [reflexivity|]. split; [discriminate|].
  intros point Hin. apply Nat.ltb_ge in Hlen.
  destruct (is_legal (conn_board self) point color) eqn:Hl; [|reflexivity].
  assert (Hmem : In point legalMoves) by (apply filter_In; auto).
  destruct legalMoves; [contradiction | simpl in Hlen; lia].
Qed.

Lemma genmove_plays_legal_empty_point_witness :
  exists move,
    In move (empties_of board4) /\
    format_point (point_to_coord move 4) = Some "A2"%string /\
    capture_stones (mkConn 0 0 (set_cell board4 move WHITE)) move WHITE
      = Returned (mkConn 0 0 (set_cell board4 move WHITE)).
Proof.
  destruct (genmove_plays_legal_empty_point unit (fun _ => "unknown"%string)
              empties_of (fun _ _ _ => true) (@set_cell unit)
              (fun l => hd 0 l) conn4 (mkConn 0 0 (set_cell board4 11 WHITE))
              "w" "A2" WHITE)
    as (move & Hin & _ & Hfmt & Hcap).
  - intros [|x l] Hl; [congruence | left; reflexivity].
  - reflexivity.
  - vm_compute. reflexivity.
  - discriminate.
  - discriminate.
  - exists move. split; [exact Hin|]. split; [exact Hfmt|].
    assert (Hmove : move = 11).
    { destruct (Z.eq_dec move 11) as [Heq | Hne]; [exact Heq|].
      exfalso. vm_compute in Hin.
      repeat (destruct Hin as [<- | Hin]; [try (apply Hne; reflexivity);
                                           vm_compute in Hfmt; discriminate Hfmt|]).
      exact Hin. }
    subst move. exact Hcap.
Defined.

Lemma genmove_silent_without_legal_move_witness :
  empties_of board4 <> [] /\
  forall point, In point (empties_of board4) -> (point <? 0) = false.
Proof.
  destruct (genmove_silent_without_legal_move unit (fun _ => "unknown"%string)
              empties_of (fun _ p _ => p <? 0) (@set_cell unit)
              (fun l => hd 0 l) conn4 conn4 "b" BLACK)
    as (_ & Hne & Hall).
  - reflexivity.
  - vm_compute. reflexivity.
  - split; [exact Hne | exact Hall].
Defined.

End Gtp.

(** ** [assignment3/Ninuki.py]: the simulation player *)

Module Rollout.

(** [l[i] += 1] on a Python list: negative indices count from the end,
    anything else out of range raises [IndexError] ([None]). *)
Definition py_list_incr (l : list Z) (i : Z) : option (list Z) :=
  let n := Z.of_nat (length l) in
  let j := if i <? 0 then i + n else i in
  if (0 <=? j) && (j <? n) then Some (alter Z.succ (Z.to_nat j) l) else None.

Definition py_list_get (l : list Z) (i : Z) : Z := default 0 (l !! Z.to_nat i).

Definition sum (l : list Z) : Z := fold_right Z.add 0 l.

Section SimulationPlayer.

(** [GoBoard] and the state of the random source; the board methods used
    by the player are absent from the sources.  [simulation] plays the
    board out at random and reports the winner ([EMPTY] for a draw); it
    may leave the board it ran on changed. *)
Variable GoBoard : Type.
Variable Rng : Type.
Variable end_of_game : GoBoard -> bool.
Variable get_empty_points : GoBoard -> list Z.
Variable current_player : GoBoard -> Z.
Variable play_move : GoBoard -> Z -> Z -> GoBoard.
Variable simulation : GoBoard -> Rng -> Z * GoBoard * Rng.

(** [self.numSimulations] *)
Variable numSimulations : Z.

(** The [for _ in range(self.numSimulations)] loop of [simulate].
    [copy.deepcopy] yields an equal board, so the copy taken at the end of
    each round is the board the round left behind. *)
Fixpoint rollouts (k : nat) (c_state : GoBoard) (stats : list Z) (rng : Rng)
    : option (list Z * Rng) :=
  match k with
  | O => Some (stats, rng)
  | S k' =>
      let '(winner, c_state', rng') := simulation c_state rng in
      match py_list_incr stats winner with
      | None => None
      | Some stats' => rollouts k' c_state' stats' rng'
      end
  end.

(** [simulate(state, move)].  Scores are Python floats; they are taken
    here as exact rationals, which order the same way for tallies of any
    realistic size.  [None] is a raised exception ([IndexError], a failed
    [assert], [ZeroDivisionError]). *)
Definition simulate (state : GoBoard) (move : Z) (rng : Rng) : option (Q * Rng) :=
  let c_state := play_move state move (current_player state) in
  match rollouts (Z.to_nat numSimulations) c_state [0; 0; 0] rng with
  | None => None
  | Some (stats, rng') =>
      if negb (sum stats =? numSimulations) then None
      else if numSimulations =? 0 then None
      else
        let eval :=
          ((inject_Z (py_list_get stats BLACK)
            + (1 # 2) * inject_Z (py_list_get stats EMPTY))
           / inject_Z numSimulations)%Q in
        let eval := if current_player state =? WHITE then (1 - eval)%Q else eval in
        Some (eval, rng')
  end.

(** [best_move], [best_score]; a [best_score] of [None] is
    [float('-inf')]. *)
Definition Best : Type := option Z * option Q.

(** [if score > best_score: best_score = score; best_move = move] *)
Definition improve (best : Best) (move : Z) (score : Q) : Best :=
  match snd best with
  | None => (Some move, Some score)
  | Some best_score =>
      if Qlt_le_dec best_score score then (Some move, Some score) else best
  end.

(** [for _ in range(10)] *)
Fixpoint batches_of_move (k : nat) (state : GoBoard) (move : Z) (best : Best)
    (rng : Rng) : option (Best * Rng) :=
  match k with
  | O => Some (best, rng)
  | S k' =>
      match simulate state move rng with
      | None => None
      | Some (score, rng') =>
          batches_of_move k' state move (improve best move score) rng'
      end
  end.

(** [for i in range(numMoves): move = moves[i]; ...] *)
Fixpoint candidates (moves : list Z) (state : GoBoard) (best : Best) (rng : Rng)
    : option (Best * Rng) :=
  match moves with
  | [] => Some (best, rng)
  | move :: moves' =>
      match batches_of_move 10 state move best rng with
      | None => None
      | Some (best', rng') => candidates moves' state best' rng'
      end
  end.

(** [genmove(state)]; [None] is a failed [assert] or an exception out of
    [simulate]. *)
Definition genmove (state : GoBoard) (rng : Rng) : option (Z * Rng) :=
  if end_of_game state then None
  else
    let moves := get_empty_points state in
    match candidates moves state (None, None) rng with
    | None => None
    | Some ((best_move, _), rng') =>
        match best_move with
        | Some m =>
            if existsb (Z.eqb m) (get_empty_points state) then Some (m, rng')
            else None
        | None => None
        end
    end.

(** *** The batches in evaluation order *)

(** The order in which [genmove] evaluates: every candidate ten times in
    a row, candidates in enumeration order. *)
Definition schedule (moves : list Z) : list Z :=
  flat_map (fun move => repeat move 10) moves.

(** The score of every batch of a schedule, in evaluation order. *)
Fixpoint batch_scores (sched : list Z) (state : GoBoard) (rng : Rng)
    : option (list (Z * Q) * Rng) :=
  match sched with
  | [] => Some ([], rng)
  | move :: sched' =>
      match simulate state move rng with
      | None => None
      | Some (score, rng') =>
          match batch_scores sched' state rng' with
          | None => None
          | Some (bs, rng'') => Some ((move, score) :: bs, rng'')
          end
      end
  end.

(** The mean of the batch scores of one candidate: its score over all of
    its rollouts taken together. *)
Definition aggregate (move : Z) (bs : list (Z * Q)) : Q :=
  let mine := List.filter (fun b => fst b =? move) bs in
  (fold_right Qplus 0%Q (map snd mine) / inject_Z (Z.of_nat (length mine)))%Q.

Definition improve_with (best : Best) (b : Z * Q) : Best :=
  improve best (fst b) (snd b).

(** Every rollout names a winner the tally has a slot for. *)
Definition winners_ok : Prop :=
  forall b r, 0 <= fst (fst (simulation b r)) <= 2.

Lemma sum_alter_succ (l : list Z) (i : nat) :
  (i < length l)%nat -> sum (alter Z.succ i l) = sum l + 1.
Proof.
  revert i. induction l as [|x l IH]; intros i Hi; simpl in *; [lia|].
  destruct i as [|i]; simpl; [lia|].
  change (list_alter Z.succ i l) with (alter Z.succ i l).
  rewrite IH by lia. lia.
Qed.

Lemma rollouts_total (k : nat) :
  winners_ok ->
  forall c_state stats rng, length stats = 3%nat ->
  exists stats' rng',
    rollouts k c_state stats rng = Some (stats', rng') /\
    length stats' = 3%nat /\ sum stats' = sum stats + Z.of_nat k.
Proof.
  intros Hw. induction k as [|k IH]; intros c_state stats rng Hlen; simpl.
  - exists stats, rng. repeat split; [assumption | lia].
  - specialize (Hw c_state rng).
    destruct (simulation c_state rng) as [[winner c_state'] rng1]. simpl in Hw.
    unfold py_list_incr. rewrite Hlen.
    replace (winner <? 0) with false by (symmetry; apply Z.ltb_ge; lia).
    replace ((0 <=? winner) && (winner <? Z.of_nat 3)) with true
      by (symmetry; apply andb_true_intro; split;
          [apply Z.leb_le | apply Z.ltb_lt]; lia).
    destruct (IH c_state' (alter Z.succ (Z.to_nat winner) stats) rng1)
      as (stats' & rng' & Hr & Hlen' & Hsum).
    { rewrite length_alter. exact Hlen. }
    exists stats', rng'. repeat split; [exact Hr | exact Hlen' |].
    rewrite Hsum, sum_alter_succ by lia. lia.
Qed.

Lemma simulate_total (state : GoBoard) (move : Z) (rng : Rng) :
  winners_ok -> 0 < numSimulations ->
  exists score rng', simulate state move rng = Some (score, rng').
Proof.
  intros Hw Hn. unfold simulate.
  destruct (rollouts_total (Z.to_nat numSimulations) Hw
              (play_move state move (current_player state)) [0; 0; 0] rng eq_refl)
    as (stats & rng' & -> & _ & Hsum).
  simpl in Hsum. rewrite Hsum, Z2Nat.id, Z.eqb_refl by lia. simpl.
  replace (numSimulations =? 0) with false by (symmetry; apply Z.eqb_neq; lia).
  eauto.
Qed.

Lemma batch_scores_total (sched : list Z) (state : GoBoard) :
  winners_ok -> 0 < numSimulations ->
  forall rng, exists bs rng',
    batch_scores sched state rng = Some (bs, rng') /\ map fst bs = sched.
Proof.
  intros Hw Hn. induction sched as [|m sched IH]; intros rng; simpl.
  - exists [], rng. split; reflexivity.
  - destruct (simulate_total state m rng Hw Hn) as (score & rng1 & ->).
    destruct (IH rng1) as (bs & rng' & -> & Hfst).
    exists ((m, score) :: bs), rng'. simpl. rewrite Hfst. split; reflexivity.
Qed.

Lemma batch_scores_app (s1 s2 : list Z) (state : GoBoard) (rng : Rng) :
  batch_scores (s1 ++ s2) state rng =
  match batch_scores s1 state rng with
  | None => None
  | Some (bs1, rng1) =>
      match batch_scores s2 state rng1 with
      | None => None
      | Some (bs2, rng2) => Some (bs1 ++ bs2, rng2)
      end
  end.
Proof.
  revert rng. induction s1 as [|m s1 IH]; intros rng; simpl.
  - destruct (batch_scores s2 state rng) as [[bs2 rng2]|]; reflexivity.
  - destruct (simulate state m rng) as [[score rng1]|]; [|reflexivity].
    rewrite IH.
    destruct (batch_scores s1 state rng1) as [[bs1 rng2]|]; [|reflexivity].
    destruct (batch_scores s2 state rng2) as [[bs2 rng3]|]; reflexivity.
Qed.

Lemma batches_of_move_scores (k : nat) (state : GoBoard) (move : Z) :
  forall best rng,
  batches_of_move k state move best rng =
  match batch_scores (repeat move k) state rng with
  | None => None
  | Some (bs, rng') => Some (fold_left improve_with bs best, rng')
  end.
Proof.
  induction k as [|k IH]; intros best rng; simpl; [reflexivity|].
  destruct (simulate state move rng) as [[score rng1]|]; [|reflexivity].
  rewrite IH.
  destruct (batch_scores (repeat move k) state rng1) as [[bs rng2]|]; reflexivity.
Qed.

Lemma candidates_scores (moves : list Z) (state : GoBoard) :
  forall best rng,
  candidates moves state best rng =
  match batch_scores (schedule moves) state rng with
  | None => None
  | Some (bs, rng') => Some (fold_left improve_with bs best, rng')
  end.
Proof.
  induction moves as [|m moves IH]; intros best rng; [reflexivity|].
  change (schedule (m :: moves)) with (repeat m 10 ++ schedule moves).
  rewrite batch_scores_app.
  change (candidates (m :: moves) state best rng) with
    (match batches_of_move 10 state m best rng with
     | None => None
     | Some (best', rng') => candidates moves state best' rng'
     end).
  rewrite batches_of_move_scores.
  destruct (batch_scores (repeat m 10) state rng) as [[bs1 rng1]|]; [|reflexivity].
  rewrite IH.
  destruct (batch_scores (schedule moves) state rng1) as [[bs2 rng2]|]; [|reflexivity].
  rewrite fold_left_app. reflexivity.
Qed.

(** The running best of a non-empty run of batches is its first batch
    with the largest score. *)
Lemma first_best (bs : list (Z * Q)) :
  bs <> [] ->
  exists i m s,
    fold_left improve_with bs (None, None) = (Some m, Some s) /\
    bs !! i = Some (m, s) /\
    (forall j m' s', bs !! j = Some (m', s') -> (s' <= s)%Q) /\
    (forall j m' s', (j < i)%nat -> bs !! j = Some (m', s') -> (s' < s)%Q).
Proof.
  induction bs as [|[mx sx] bs IH] using rev_ind; [congruence|]. intros _.
  rewrite fold_left_app. cbn [fold_left].
  assert (Hbs : bs = [] \/ bs <> []) by (destruct bs; [left | right]; congruence).
  destruct Hbs as [-> | Hbs].
  - exists 0%nat, mx, sx. simpl. repeat split.
    + intros [|j] m' s' Hj; simpl in Hj; [|destruct j; discriminate].
      injection Hj as <- <-. apply Qle_refl.
    + intros j m' s' Hj. lia.
  - destruct (IH Hbs) as (i & m & s & Hfold & Hi & Hle & Hlt).
    rewrite Hfold. unfold improve_with, improve. cbn [fst snd].
    assert (Hil : (i < length bs)%nat) by (eapply lookup_lt_Some; eauto).
    destruct (Qlt_le_dec s sx) as [Hs | Hs].
    + exists (length bs), mx, sx. repeat split.
      * rewrite lookup_app_r, Nat.sub_diag by lia. reflexivity.
      * intros j m' s' Hj.
        destruct (decide (j < length bs)%nat) as [Hjl | Hjl].
        -- rewrite lookup_app_l in Hj by exact Hjl.
           apply Qlt_le_weak. eapply Qle_lt_trans; [eapply Hle; eauto | exact Hs].
        -- rewrite lookup_app_r in Hj by lia.
           destruct (j - length bs)%nat; simpl in Hj; [|discriminate].
           injection Hj as <- <-. apply Qle_refl.
      * intros j m' s' Hjl Hj.
        rewrite lookup_app_l in Hj by exact Hjl.
        eapply Qle_lt_trans; [eapply Hle; eauto | exact Hs].
    + exists i, m, s. repeat split.
      * rewrite lookup_app_l by exact Hil. exact Hi.
      * intros j m' s' Hj.
        destruct (decide (j < length bs)%nat) as [Hjl | Hjl].
        -- rewrite lookup_app_l in Hj by exact Hjl. eapply Hle; eauto.
        -- rewrite lookup_app_r in Hj by lia.
           destruct (j - length bs)%nat; simpl in Hj; [|discriminate].
           injection Hj as <- <-. exact Hs.
      * intros j m' s' Hjl Hj.
        rewrite lookup_app_l in Hj by lia. eapply Hlt; eauto.
Qed.

Lemma schedule_nonempty (moves : list Z) : moves <> [] -> schedule moves <> [].
Proof. destruct moves; [congruence|]. discriminate. Qed.

Lemma in_schedule (moves : list Z) (m : Z) : In m (schedule moves) -> In m moves.
Proof.
  unfold schedule. rewrite in_flat_map. intros (x & Hx & Hm).
  apply repeat_spec in Hm. subst. exact Hx.
Qed.

(** *** The score of a batch, from the winners of its rollouts *)

(** The winners named by the [k] rollouts of one batch, in the order they
    are played: each rollout runs on the board the one before it left. *)
Fixpoint rollout_winners (k : nat) (c_state : GoBoard) (rng : Rng) : list Z * Rng :=
  match k with
  | O => ([], rng)
  | S k' =>
      let '(winner, c_state', rng') := simulation c_state rng in
      let '(winners, rng'') := rollout_winners k' c_state' rng' in
      (winner :: winners, rng'')
  end.

(** How many of the rollouts name [colour] ([EMPTY]: how many are drawn). *)
Definition wins (colour : Z) (winners : list Z) : Z :=
  Z.of_nat (length (List.filter (Z.eqb colour) winners)).

(** The score as the claim words it: Black's wins plus half the draws,
    over the number of rollouts, complemented when White is to move. *)
Definition claimed_score (to_move : Z) (winners : list Z) : Q :=
  let score :=
    ((inject_Z (wins BLACK winners) + (1 # 2) * inject_Z (wins EMPTY winners))
     / inject_Z (Z.of_nat (length winners)))%Q in
  if to_move =? WHITE then (1 - score)%Q else score.

(** The batches of a schedule, each scored as the claim words it from the
    winners of its own [numSimulations] rollouts, which start from the
    board with the candidate played. *)
Fixpoint claimed_batches (sched : list Z) (state : GoBoard) (rng : Rng)
    : list (Z * Q) * Rng :=
  match sched with
  | [] => ([], rng)
  | move :: sched' =>
      let '(winners, rng') :=
        rollout_winners (Z.to_nat numSimulations)
                        (play_move state move (current_player state)) rng in
      let '(bs, rng'') := claimed_batches sched' state rng' in
      ((move, claimed_score (current_player state) winners) :: bs, rng'')
  end.

Lemma rollout_winners_length (k : nat) :
  forall c_state rng, length (fst (rollout_winners k c_state rng)) = k.
Proof.
  induction k as [|k IH]; intros c_state rng; simpl; [reflexivity|].
  destruct (simulation c_state rng) as [[winner c_state'] rng1].
  specialize (IH c_state' rng1).
  destruct (rollout_winners k c_state' rng1) as [winners rng2].
  simpl in *. rewrite IH. reflexivity.
Qed.

Lemma wins_cons (colour w : Z) (winners : list Z) :
  wins colour (w :: winners) = (if colour =? w then 1 else 0) + wins colour winners.
Proof.
  unfold wins. simpl. destruct (colour =? w); simpl length; lia.
Qed.

(** The tally [simulate] keeps is the count of the winners, slot by slot. *)
Lemma rollouts_count (k : nat) :
  winners_ok ->
  forall c_state rng draws black white,
    rollouts k c_state [draws; black; white] rng =
    Some ([draws + wins EMPTY (fst (rollout_winners k c_state rng));
           black + wins BLACK (fst (rollout_winners k c_state rng));
           white + wins WHITE (fst (rollout_winners k c_state rng))],
          snd (rollout_winners k c_state rng)).
Proof.
  intros Hw. induction k as [|k IH]; intros c_state rng draws black white.
  - simpl. unfold wins. simpl. rewrite !Z.add_0_r. reflexivity.
  - cbn [rollouts rollout_winners].
    specialize (Hw c_state rng).
    destruct (simulation c_state rng) as [[winner c_state'] rng1]. simpl in Hw.
    destruct (rollout_winners k c_state' rng1) as [winners rng2] eqn:Hrest.
    cbn [fst snd]. rewrite !wins_cons.
    assert (Hcase : winner = 0 \/ winner = 1 \/ winner = 2) by lia.
    destruct Hcase as [-> | [-> | ->]]; cbn [py_list_incr]; simpl;
      rewrite IH, Hrest; cbn [fst snd]; unfold EMPTY, BLACK, WHITE; simpl;
      repeat (f_equal; try lia).
Qed.

Lemma wins_total (winners : list Z) :
  Forall (fun w => 0 <= w <= 2) winners ->
  wins EMPTY winners + wins BLACK winners + wins WHITE winners
    = Z.of_nat (length winners).
Proof.
  induction 1 as [|w winners Hw _ IH]; [reflexivity|].
  rewrite !wins_cons. cbn [length]. unfold EMPTY, BLACK, WHITE in *.
  assert (Hcase : w = 0 \/ w = 1 \/ w = 2) by lia.
  destruct Hcase as [-> | [-> | ->]]; simpl Z.eqb; cbv iota; lia.
Qed.

Lemma rollout_winners_ok (k : nat) :
  winners_ok ->
  forall c_state rng,
    Forall (fun w => 0 <= w <= 2) (fst (rollout_winners k c_state rng)).
Proof.
  intros Hw. induction k as [|k IH]; intros c_state rng; simpl; [constructor|].
  pose proof (Hw c_state rng) as Hone.
  destruct (simulation c_state rng) as [[winner c_state'] rng1]. simpl in Hone.
  specialize (IH c_state' rng1).
  destruct (rollout_winners k c_state' rng1) as [winners rng2].
  simpl in *. constructor; assumption.
Qed.

(** [simulate] computes the score as the claim words it. *)
Lemma simulate_claimed_score (state : GoBoard) (move : Z) (rng : Rng) :
  winners_ok -> 0 < numSimulations ->
  simulate state move rng =
  Some (claimed_score (current_player state)
          (fst (rollout_winners (Z.to_nat numSimulations)
                  (play_move state move (current_player state)) rng)),
        snd (rollout_winners (Z.to_nat numSimulations)
               (play_move state move (current_player state)) rng)).
Proof.
  intros Hw Hn. unfold simulate. rewrite (rollouts_count _ Hw).
  set (run := rollout_winners (Z.to_nat numSimulations)
                (play_move state move (current_player state)) rng).
  pose proof (wins_total (fst run) (rollout_winners_ok _ Hw _ _)) as Htotal.
  pose proof (rollout_winners_length (Z.to_nat numSimulations)
                (play_move state move (current_player state)) rng) as Hlen.
  fold run in Hlen. rewrite Hlen, Z2Nat.id in Htotal by lia.
  replace (sum [0 + wins EMPTY (fst run); 0 + wins BLACK (fst run);
                0 + wins WHITE (fst run)] =? numSimulations) with true
    by (symmetry; apply Z.eqb_eq; simpl; lia).
  replace (numSimulations =? 0) with false by (symmetry; apply Z.eqb_neq; lia).
  unfold claimed_score. rewrite Hlen, Z2Nat.id by lia. reflexivity.
Qed.

Lemma batch_scores_claimed (sched : list Z) (state : GoBoard) :
  winners_ok -> 0 < numSimulations ->
  forall rng, batch_scores sched state rng = Some (claimed_batches sched state rng).
Proof.
  intros Hw Hn. induction sched as [|move sched IH]; intros rng; [reflexivity|].
  cbn [batch_scores claimed_batches].
  rewrite (simulate_claimed_score state move rng Hw Hn).
  destruct (rollout_winners _ _ rng) as [winners rng1]. cbn [fst snd].
  rewrite IH. destruct (claimed_batches sched state rng1) as [bs rng2]. reflexivity.
Qed.

(** C6 (amended).  On a board that is not over and has an empty point,
    with a positive number of rollouts per batch and rollouts that name
    Black, White or a draw, [genmove] returns an empty point.  Every
    candidate is scored ten times in a row, candidates in enumeration
    order, each time from [numSimulations] rollouts of its own; the score
    of such a batch is Black's wins plus half the draws among its
    rollouts, over their number, complemented when White is to move.  The
    point returned is that of the first batch, in evaluation order, whose
    score is the largest of all batches of all candidates. *)
Theorem genmove_first_best_batch (state : GoBoard) (rng : Rng) :
  winners_ok ->
  0 < numSimulations ->
  end_of_game state = false ->
  get_empty_points state <> [] ->
  exists m rng' bs i s,
    genmove state rng = Some (m, rng') /\
    claimed_batches (schedule (get_empty_points state)) state rng = (bs, rng') /\
    batch_scores (schedule (get_empty_points state)) state rng = Some (bs, rng') /\
    In m (get_empty_points state) /\
    bs !! i = Some (m, s) /\
    (forall j m' s', bs !! j = Some (m', s') -> (s' <= s)%Q) /\
    (forall j m' s', (j < i)%nat -> bs !! j = Some (m', s') -> (s' < s)%Q).
Proof.
  intros Hw Hn Hend Hmoves. unfold genmove. rewrite Hend, candidates_scores.
  destruct (batch_scores_total (schedule (get_empty_points state)) state Hw Hn rng)
    as (bs & rng' & Hbs & Hfst).
  rewrite Hbs.
  assert (Hclaimed :
            claimed_batches (schedule (get_empty_points state)) state rng = (bs, rng')).
  { rewrite (batch_scores_claimed _ state Hw Hn rng) in Hbs. congruence. }
  destruct (first_best bs) as (i & m & s & Hfold & Hi & Hle & Hlt).
  { intros ->. simpl in Hfst. symmetry in Hfst.
    exact (schedule_nonempty _ Hmoves Hfst). }
  rewrite Hfold.
  assert (Hin : In m (get_empty_points state)).
  { apply in_schedule. rewrite <- Hfst.
    apply (in_map fst bs (m, s)). apply list_elem_of_In.
    eapply list_elem_of_lookup_2; eauto. }
  replace (existsb (Z.eqb m) (get_empty_points state)) with true.
  - exists m, rng', bs, i, s. repeat split; auto.
  - symmetry. apply existsb_exists. exists m. split; [exact Hin | apply Z.eqb_refl].
Qed.


(** *** What [simulate] and [genmove] need in order to return *)

Lemma rollouts_tally (k : nat) :
  forall c_state stats rng stats' rng',
    rollouts k c_state stats rng = Some (stats', rng') ->
    Forall (fun x => 0 <= x) stats ->
    Forall (fun x => 0 <= x) stats' /\
    length stats' = length stats /\
    sum stats' = sum stats + Z.of_nat k.
Proof.
  induction k as [|k IH]; intros c_state stats rng stats' rng' H Hpos; simpl in H.
  - injection H as <- <-. repeat split; [assumption | lia].
  - destruct (simulation c_state rng) as [[winner c_state'] rng1].
    unfold py_list_incr in H.
    destruct ((0 <=? _) && (_ <? _)) eqn:Hin; [|discriminate].
    apply andb_prop in Hin as [H0 H1]. apply Z.leb_le in H0. apply Z.ltb_lt in H1.
    apply IH in H.
    + destruct H as (Hpos' & Hlen & Hsum). rewrite length_alter in Hlen.
      split; [exact Hpos'|]. split; [exact Hlen|].
      rewrite Hsum, sum_alter_succ by lia. lia.
    + apply Forall_alter; [exact Hpos|]. intros x _ Hx. lia.
Qed.

(** What a returning [simulate] has counted: a tally of draws, Black wins
    and White wins whose total is the positive number of rollouts asked
    for, and the score formed from it. *)
Lemma simulate_tally (state : GoBoard) (move : Z) (rng : Rng) (score : Q) (rng' : Rng) :
  simulate state move rng = Some (score, rng') ->
  exists draws black white,
    0 <= draws /\ 0 <= black /\ 0 <= white /\
    draws + black + white = numSimulations /\ 0 < numSimulations /\
    score =
      (let eval := ((inject_Z black + (1 # 2) * inject_Z draws)
                    / inject_Z numSimulations)%Q in
       if current_player state =? WHITE then (1 - eval)%Q else eval).
Proof.
  unfold simulate.
  destruct (rollouts _ _ _ _) as [[stats rng1]|] eqn:Hr; [|discriminate].
  apply rollouts_tally in Hr; [|repeat (constructor; [lia|]); constructor].
  destruct Hr as (Hpos & Hlen & Hsum).
  destruct (sum stats =? numSimulations) eqn:Hs; [|discriminate].
  destruct (numSimulations =? 0) eqn:Hz; [discriminate|].
  apply Z.eqb_eq in Hs. apply Z.eqb_neq in Hz. simpl.
  destruct stats as [|a [|b [|c [|d stats]]]]; try discriminate Hlen.
  apply Forall_cons in Hpos as [Ha Hpos].
  apply Forall_cons in Hpos as [Hb Hpos].
  apply Forall_cons in Hpos as [Hc _].
  simpl in Hs, Hsum.
  intros H. injection H as <- <-.
  exists a, b, c. repeat split; try lia. 
Qed.

Lemma unit_mean (draws black n : Z) :
  0 <= draws -> 0 <= black -> draws + black <= n -> 0 < n ->
  (0 <= (inject_Z black + (1 # 2) * inject_Z draws) / inject_Z n <= 1)%Q.
Proof.
  intros Hd Hb Hle Hn.
  assert (Hpos : (0 < inject_Z n)%Q) by (unfold Qlt; simpl; lia).
  split.
  - apply Qle_shift_div_l; [exact Hpos|].
    unfold Qle, Qmult, Qplus, inject_Z. simpl. lia.
  - apply Qle_shift_div_r; [exact Hpos|].
    unfold Qle, Qmult, Qplus, inject_Z. simpl. lia.
Qed.

(** X13.  Whenever [simulate] returns, the number of rollouts is positive
    and the score is a number between 0 and 1. *)
Theorem simulate_score_in_unit_interval (state : GoBoard) (move : Z) (rng : Rng)
    (score : Q) (rng' : Rng) :
  simulate state move rng = Some (score, rng') ->
  0 < numSimulations /\ (0 <= score <= 1)%Q.
Proof.
  intros H. apply simulate_tally in H.
  destruct H as (draws & black & white & Hd & Hb & Hw & Hsum & Hn & ->).
  split; [exact Hn|].
  pose proof (unit_mean draws black numSimulations Hd Hb ltac:(lia) Hn) as [H0 H1].
  cbv zeta. destruct (current_player state =? WHITE); split; lra.
Qed.

(** X14.  [genmove] returns only on a board whose game is not over, with
    a positive number of rollouts per batch, and what it returns is one of
    the board's empty points; in every other case it raises. *)
Theorem genmove_only_with_rollouts (state : GoBoard) (rng : Rng) (m : Z) (rng' : Rng) :
  genmove state rng = Some (m, rng') ->
  end_of_game state = false /\
  In m (get_empty_points state) /\
  0 < numSimulations.
Proof.
  unfold genmove. destruct (end_of_game state); [discriminate|].
  destruct (candidates _ _ _ _) as [[[[bm|] bs] rng1]|] eqn:Hc; try discriminate.
  destruct (existsb _ _) eqn:Hex; [|discriminate].
  intros H. injection H as -> ->.
  apply existsb_exists in Hex. destruct Hex as (p & Hin & Hp).
  apply Z.eqb_eq in Hp. subst p.
  split; [reflexivity|]. split; [exact Hin|].
  destruct (get_empty_points state) as [|m0 ms]; [contradiction|].
  cbn [candidates batches_of_move] in Hc.
  destruct (simulate state m0 rng) as [[score rng2]|] eqn:Hs; [|discriminate].
  apply simulate_tally in Hs.
  destruct Hs as (draws & black & white & _ & _ & _ & _ & Hn & _). exact Hn.
Qed.

End SimulationPlayer.

(** *** A scripted run

    Two empty points, 5 and 6, Black to move, one rollout per batch.  The
    random source is the number of rollouts played so far: the first
    rollout is won by Black, the next nine by White, all later ones are
    drawn.  So point 5 scores 1 in its first batch and 0 in the other
    nine; point 6 scores 1/2 in each of its ten batches. *)

Definition scripted_winner (k : nat) : Z :=
  if (k =? 0)%nat then BLACK else if (k <? 10)%nat then WHITE else EMPTY.

Definition scripted_simulation (b : unit) (k : nat) : Z * unit * nat :=
  (scripted_winner k, b, S k).

Definition scripted_genmove : option (Z * nat) :=
  genmove unit nat (fun _ => false) (fun _ => [5; 6]) (fun _ => BLACK)
          (fun b _ _ => b) scripted_simulation 1 tt 0%nat.

Definition scripted_batches : option (list (Z * Q) * nat) :=
  batch_scores unit nat (fun _ => BLACK) (fun b _ _ => b) scripted_simulation 1
               (schedule [5; 6]) tt 0%nat.

(** C6, as stated, fails on the scripted run: the player returns point 5,
    whose score over all of its rollouts is 1/10, although point 6 scores
    1/2 over all of its rollouts. *)
Lemma genmove_not_highest_aggregate :
  exists bs,
    scripted_batches = Some (bs, 20%nat) /\
    scripted_genmove = Some (5, 20%nat) /\
    (aggregate 5 bs == 1 # 10)%Q /\
    (aggregate 6 bs == 1 # 2)%Q /\
    (aggregate 5 bs < aggregate 6 bs)%Q.
Proof.
  eexists. split; [vm_compute; reflexivity|].
  split; [vm_compute; reflexivity|].
  repeat split; vm_compute; reflexivity.
Qed.

Lemma genmove_first_best_batch_witness :
  exists m rng' bs i s,
    scripted_genmove = Some (m, rng') /\
    claimed_batches unit nat (fun _ => BLACK) (fun b _ _ => b) scripted_simulation 1
                    (schedule [5; 6]) tt 0%nat = (bs, rng') /\
    scripted_batches = Some (bs, rng') /\
    In m [5; 6] /\
    bs !! i = Some (m, s) /\
    (forall j m' s', bs !! j = Some (m', s') -> (s' <= s)%Q) /\
    (forall j m' s', (j < i)%nat -> bs !! j = Some (m', s') -> (s' < s)%Q).
Proof.
  apply (genmove_first_best_batch unit nat (fun _ => false) (fun _ => [5; 6])
           (fun _ => BLACK) (fun b _ _ => b) scripted_simulation 1 tt 0%nat).
  - intros b r. unfold scripted_simulation, scripted_winner. simpl.
    destruct (r =? 0)%nat; [vm_compute; split; discriminate|].
    destruct (r <? 10)%nat; vm_compute; split; discriminate.
  - reflexivity.
  - reflexivity.
  - discriminate.
Defined.


Lemma simulate_score_in_unit_interval_witness :
  exists score rng',
    simulate unit nat (fun _ => BLACK) (fun b _ _ => b) scripted_simulation 1
             tt 5 0%nat = Some (score, rng') /\
    (0 <= score <= 1)%Q.
Proof.
  assert (H : exists score rng',
             simulate unit nat (fun _ => BLACK) (fun b _ _ => b)
                      scripted_simulation 1 tt 5 0%nat = Some (score, rng'))
    by (eexists; eexists; vm_compute; reflexivity).
  destruct H as (score & rng' & H). exists score, rng'. split; [exact H|].
  apply (simulate_score_in_unit_interval unit nat (fun _ => BLACK) (fun b _ _ => b)
           scripted_simulation 1 tt 5 0%nat score rng' H).
Defined.

Lemma genmove_only_with_rollouts_witness :
  In 5 [5; 6] /\ 0 < 1.
Proof.
  destruct (genmove_only_with_rollouts unit nat (fun _ => false) (fun _ => [5; 6])
              (fun _ => BLACK) (fun b _ _ => b) scripted_simulation 1 tt 0%nat
              5 20%nat) as (_ & Hin & Hn).
  - vm_compute. reflexivity.
  - split; [exact Hin | exact Hn].
Defined.

End Rollout.

(** ** [assignment4/team7/Ninuki.py]: the alpha-beta solver *)

Module Solver.

(** The values [get_move] may be handed as [color]: the type annotation
    promises an integer colour code, the test in its body compares with a
    string. *)
Inductive pyval : Type :=
  | PyInt (n : Z)
  | PyStr (s : string).

(** [a == b] on such values: an integer never equals a string. *)
Definition py_eq (a b : pyval) : bool :=
  match a, b with
  | PyInt x, PyInt y => x =? y
  | PyStr x, PyStr y => String.eqb x y
  | _, _ => false
  end.

(** A mutating call made on [self.board]. *)
Inductive BoardCall : Type :=
  | Play (move color : Z)
  | Undo.

(** Call sequences in which every [Play] is closed by an [Undo] of its
    own, properly nested. *)
Inductive balanced : list BoardCall -> Prop :=
  | balanced_nil : balanced []
  | balanced_block (move color : Z) (inner rest : list BoardCall) :
      balanced inner -> balanced rest ->
      balanced (Play move color :: inner ++ Undo :: rest).

(** What [alpha_beta] returns: [(value, solved, timeout)]. *)
Definition Result : Type := Z * bool * bool.

(** What [solve_board] returns: a winner tag and a move text, if any. *)
Definition Verdict : Type := string * option string.

Section Player.

(** The state of a [GoBoard] beyond the attributes this file touches. *)
Variable Rest : Type.

Record GoBoard := mkBoard {
  size : Z;
  current_player : Z;
  last_move : option string;
  rest : Rest
}.

(** Methods of [GoBoard] and [GoBoardUtil], absent from the sources.
    [is_terminal] yields the flag and the winner's colour (any value that
    is neither player stands for a draw). *)
Variable get_empty_points : GoBoard -> list Z.
Variable is_terminal : GoBoard -> bool * Z.
Variable play_move : GoBoard -> Z -> Z -> GoBoard.
Variable undo : GoBoard -> GoBoard.
Variable copy : GoBoard -> GoBoard.
Variable check : GoBoard -> Verdict.
Variable get_potential_moves : GoBoard -> list Z.
Variable analyze : GoBoard -> Z -> Z.
Variable generate_legal_moves : GoBoard -> Z -> list Z.

(** The environment.  [deadline_passed k] is the outcome of the [k]-th
    evaluation (counting from 0) by this player of the test
    [time.time() - self.solve_start_time > self.time_limit - 0.01];
    [shuffle k] is what the [k]-th call of [random.shuffle] does. *)
Variable deadline_passed : nat -> bool.
Variable shuffle : nat -> list Z -> list Z.

(** The player object.  [ticks] and [shuffles] count the deadline tests
    and shuffles made so far; [calls] is a record, kept for the proofs
    only, of the mutating calls made on [self.board]. *)
Record Player := mkPlayer {
  board : GoBoard;
  best_move : Z;
  max_depth : nat;
  ticks : nat;
  shuffles : nat;
  calls : list BoardCall
}.

Definition tick (self : Player) : Player :=
  mkPlayer (board self) (best_move self) (max_depth self)
           (S (ticks self)) (shuffles self) (calls self).

Definition shuffled (self : Player) : Player :=
  mkPlayer (board self) (best_move self) (max_depth self)
           (ticks self) (S (shuffles self)) (calls self).

Definition set_best_move (self : Player) (move : Z) : Player :=
  mkPlayer (board self) move (max_depth self)
           (ticks self) (shuffles self) (calls self).

Definition set_max_depth (self : Player) (d : nat) : Player :=
  mkPlayer (board self) (best_move self) d
           (ticks self) (shuffles self) (calls self).

(** [self.board.play_move(move, color)] *)
Definition do_play (self : Player) (move color : Z) : Player :=
  mkPlayer (play_move (board self) move color) (best_move self) (max_depth self)
           (ticks self) (shuffles self) (calls self ++ [Play move color]).

(** [self.board.undo()] *)
Definition do_undo (self : Player) : Player :=
  mkPlayer (undo (board self)) (best_move self) (max_depth self)
           (ticks self) (shuffles self) (calls self ++ [Undo]).

(** The [for move in moves] loop of [alpha_beta]; [rec] is the recursive
    call.  The loop state is the player, [alpha] and [any_unsolved]. *)
Fixpoint ab_loop (rec : Player -> Z -> Z -> nat -> option (Result * Player))
    (beta : Z) (depth : nat) (moves : list Z)
    (self : Player) (alpha : Z) (any_unsolved : bool)
    : option (Result * Player) :=
  match moves with
  | [] => Some ((alpha, negb any_unsolved, false), self)
  | move :: moves' =>
      let self := do_play self move (current_player (board self)) in
      match rec self (- beta) (- alpha) (S depth) with
      | None => None
      | Some ((value, solved, timeout), self) =>
          let self := do_undo self in
          let value := - value in
          if timeout then Some ((0, false, true), self)
          else
            let any_unsolved := if negb solved then true else any_unsolved in
            let '(alpha, self) :=
              if alpha <? value
              then (value, if (depth =? 0)%nat then set_best_move self move else self)
              else (alpha, self) in
            if solved && (value =? 1) then Some ((1, true, false), self)
            else if beta <=? value then Some ((beta, true, false), self)
            else ab_loop rec beta depth moves' self alpha any_unsolved
      end
  end.

(** [alpha_beta(alpha, beta, depth)].  The recursion is on [fuel]; a
    call at [depth] needs more fuel than [max_depth - depth]
    ([alpha_beta_post] below), and [None] is fuel running out. *)
Fixpoint alpha_beta (fuel : nat) (self : Player) (alpha beta : Z) (depth : nat)
    : option (Result * Player) :=
  match fuel with
  | O => None
  | S fuel' =>
      let expired := deadline_passed (ticks self) in
      let self := tick self in
      if expired then Some ((0, false, true), self)
      else
        let '(is_term, winner) := is_terminal (board self) in
        if is_term then
          if winner =? current_player (board self) then Some ((1, true, false), self)
          else if winner =? opponent (current_player (board self))
          then Some ((-1, true, false), self)
          else Some ((0, true, false), self)
        else if (max_depth self <=? depth)%nat then Some ((0, false, false), self)
        else
          let moves :=
            generate_legal_moves (board self) (current_player (board self)) in
          let '(moves, self) :=
            if (depth =? 0)%nat
            then (shuffle (shuffles self) moves, shuffled self)
            else (moves, self) in
          ab_loop (alpha_beta fuel') beta depth moves self alpha false
  end.

(** [rule()], for an [analyze] that answers 0, 1, 2 or 3; [None] stands
    for any other answer, which this model does not follow.  The outer
    [Some] then holds the returned move or Python's [None]. *)
Definition rule (self : Player) : option (option Z) :=
  let moves0 := get_potential_moves (board self) in
  if forallb (fun move => let r := analyze (board self) move in (0 <=? r) && (r <=? 3)) moves0
  then
    let tier (n : Z) := List.filter (fun move => analyze (board self) move =? n) moves0 in
    let moveset := tier 1 ++ tier 2 ++ tier 3 in
    Some (head moveset)
  else None.

(** [format_point(point_to_coord(self.best_move, self.board.size)).lower()].
    The [gtp_connection] this file imports the two functions from is not
    among the sources; they are taken to be those of assignment 1. *)
Definition best_move_text (self : Player) : option string :=
  option_map lower
    (Gtp.format_point (Gtp.point_to_coord (best_move self) (size (board self)))).

(** The [while not solved and not timeout] loop of [solve_board]; [None]
    when [fuel] rounds do not end it. *)
Fixpoint deepen (fuel : nat) (self : Player) : option (Result * Player) :=
  match fuel with
  | O => None
  | S fuel' =>
      match alpha_beta (S (max_depth self)) self (-1) 1 0 with
      | None => None
      | Some ((result, solved, timeout), self) =>
          let self := set_max_depth self (S (max_depth self)) in
          if negb solved && negb timeout then deepen fuel' self
          else Some ((result, solved, timeout), self)
      end
  end.

(** The start of [solve_board], up to the call of [rule]: the player
    works on a copy of the caller's board.  The clock reading taken here
    is the origin of [deadline_passed]. *)
Definition solve_setup (self : Player) (b : GoBoard) : Player :=
  let self :=
    mkPlayer (copy b) (best_move self) (max_depth self)
             (ticks self) (shuffles self) (calls self) in
  match get_empty_points (board self) with
  | [] => set_best_move self PASS
  | p :: _ => set_best_move self p
  end.

Definition side_tag (self : Player) : string :=
  if current_player (board self) =? BLACK then "b"%string else "w"%string.

Definition other_side_tag (self : Player) : string :=
  if current_player (board self) =? BLACK then "w"%string else "b"%string.

(** [solve_board(board)].  The result carries the verdict, the player and
    the caller's board object as the call leaves it; [None] is an
    exception or a search loop that [fuel] rounds do not end. *)
Definition solve_board (fuel : nat) (self : Player) (b : GoBoard)
    : option (Verdict * Player * GoBoard) :=
  let self := solve_setup self b in
  match rule self with
  | None => None
  | Some (Some x) =>
      let self := set_best_move self x in
      match best_move_text self with
      | None => None
      | Some text => Some ((side_tag self, Some text), self, b)
      end
  | Some None =>
      let self := set_max_depth self 1 in
      match deepen fuel self with
      | None => None
      | Some ((result, solved, timeout), self) =>
          if timeout then Some (check (board self), self, b)
          else if result =? 1 then
            match best_move_text self with
            | None => None
            | Some text => Some ((side_tag self, Some text), self, b)
            end
          else if result =? -1 then Some ((other_side_tag self, None), self, b)
          else
            match best_move_text self with
            | None => None
            | Some text => Some (("draw"%string, Some text), self, b)
            end
      end
  end.

(** The side [get_move] gives the move to. *)
Definition side_selected (color : pyval) : Z :=
  if py_eq color (PyStr "w") then WHITE else BLACK.

Definition with_current_player (b : GoBoard) (c : Z) : GoBoard :=
  mkBoard (size b) c (last_move b) (rest b).

Definition with_last_move (b : GoBoard) (m : option string) : GoBoard :=
  mkBoard (size b) (current_player b) m (rest b).

(** [get_move(board, color)]: the answer, the player and the caller's
    board object as the call leaves them. *)
Definition get_move (fuel : nat) (self : Player) (b : GoBoard) (color : pyval)
    : option (string * Player * GoBoard) :=
  if (length (get_empty_points b) =? 0)%nat then Some ("pass"%string, self, b)
  else
    let b := with_current_player b (side_selected color) in
    match solve_board fuel self b with
    | None => None
    | Some ((winner, move), self, b) =>
        let b := with_last_move b move in
        match best_move_text self with
        | None => None
        | Some text => Some (text, self, b)
        end
    end.

(** *** What a search call leaves behind *)

(** Assumptions on the absent parts, used where stated: [undo] takes back
    a legal move just played, and a shuffled list holds no new element. *)
Definition undo_inverts_play : Prop :=
  forall b move,
    In move (generate_legal_moves b (current_player b)) ->
    undo (play_move b move (current_player b)) = b.

Definition shuffle_keeps : Prop :=
  forall k l move, In move (shuffle k l) -> In move l.

Definition timed_out (r : Result) : bool := snd r.

(** The facts relating the player before ([self]) and after ([self']) a
    stretch of search at [depth] that yields [r].  [cands] are the moves
    the stretch may adopt as best move, [legal] what the stretch assumes
    of them. *)
Record ab_post (legal : Prop) (cands : list Z) (depth : nat)
    (self : Player) (r : Result) (self' : Player) : Prop := {
  post_max_depth : max_depth self' = max_depth self;
  post_ticks : (ticks self <= ticks self')%nat;
  post_timeout :
    timed_out r = true ->
    r = (0, false, true) /\
    exists k, ticks self' = S k /\ (ticks self <= k)%nat /\
              deadline_passed k = true /\
              forall j, (ticks self <= j < k)%nat -> deadline_passed j = false;
  post_in_time :
    timed_out r = false ->
    forall j, (ticks self <= j < ticks self')%nat -> deadline_passed j = false;
  post_calls : exists t, calls self' = calls self ++ t /\ balanced t;
  post_inner :
    depth <> 0%nat ->
    best_move self' = best_move self /\ shuffles self' = shuffles self;
  post_best : best_move self' = best_move self \/ In (best_move self') cands;
  post_board :
    undo_inverts_play -> shuffle_keeps -> legal -> board self' = board self
}.

(** The same for one round of the move loop that did not time out:
    [move] played, searched, taken back and possibly adopted. *)
Record round_post (depth : nat) (move : Z) (self self' : Player) : Prop := {
  round_max_depth : max_depth self' = max_depth self;
  round_ticks : (ticks self <= ticks self')%nat;
  round_in_time :
    forall j, (ticks self <= j < ticks self')%nat -> deadline_passed j = false;
  round_calls : exists t, calls self' = calls self ++ t /\ balanced t;
  round_inner :
    depth <> 0%nat ->
    best_move self' = best_move self /\ shuffles self' = shuffles self;
  round_best : best_move self' = best_move self \/ best_move self' = move;
  round_board :
    undo_inverts_play -> shuffle_keeps ->
    In move (generate_legal_moves (board self) (current_player (board self))) ->
    board self' = board self
}.

Lemma balanced_app (t1 t2 : list BoardCall) :
  balanced t1 -> balanced t2 -> balanced (t1 ++ t2).
Proof.
  induction 1 as [|move color inner rest Hin _ Hrest IH]; intros H2; simpl.
  - exact H2.
  - rewrite <- app_assoc. simpl. constructor; auto.
Qed.

Lemma balanced_single (move color : Z) (inner : list BoardCall) :
  balanced inner -> balanced ([Play move color] ++ inner ++ [Undo]).
Proof. intros H. simpl. constructor; [exact H | constructor]. Qed.

(** One round: from the child's facts to the round's. *)
Lemma round_of_child (legal : Prop) (cands : list Z) (depth : nat) (move : Z)
    (self self2 : Player) (value : Z) (solved adopt : bool) :
  ab_post legal cands (S depth) (do_play self move (current_player (board self)))
          (value, solved, false) self2 ->
  legal ->
  round_post depth move self
    (if adopt
     then (if (depth =? 0)%nat then set_best_move (do_undo self2) move
           else do_undo self2)
     else do_undo self2).
Proof.
  intros [Hmax Hticks _ Hin [t [Ht Hbal]] Hinner _ Hboard] Hlegal.
  specialize (Hin eq_refl). destruct (Hinner ltac:(lia)) as [Hb Hs].
  simpl in *.
  assert (Hcalls : calls (do_undo self2)
                   = calls self ++ ([Play move (current_player (board self))] ++ t ++ [Undo])).
  { simpl. rewrite Ht. rewrite <- !app_assoc. reflexivity. }
  destruct adopt; [destruct (depth =? 0)%nat eqn:Hd|];
    (constructor; simpl;
     [ exact Hmax | exact Hticks | exact Hin
     | eexists; split; [exact Hcalls | apply balanced_single; exact Hbal]
     | | | ]).
  - intros Hne. apply Nat.eqb_eq in Hd. contradiction.
  - right; reflexivity.
  - intros Hu Hk Hm. rewrite (Hboard Hu Hk Hlegal). apply Hu, Hm.
  - intros _. split; assumption.
  - left; assumption.
  - intros Hu Hk Hm. rewrite (Hboard Hu Hk Hlegal). apply Hu, Hm.
  - intros _. split; assumption.
  - left; assumption.
  - intros Hu Hk Hm. rewrite (Hboard Hu Hk Hlegal). apply Hu, Hm.
Qed.

Definition all_legal (moves : list Z) (self : Player) : Prop :=
  forall m, In m moves ->
    In m (generate_legal_moves (board self) (current_player (board self))).

(** A round that ends the loop with a result in time. *)
Lemma post_of_round (depth : nat) (move : Z) (moves : list Z)
    (self self' : Player) (r : Result) :
  round_post depth move self self' ->
  timed_out r = false ->
  ab_post (all_legal (move :: moves) self) (move :: moves) depth self r self'.
Proof.
  intros [Hmax Hticks Hin Hcalls Hinner Hbest Hboard] Hr.
  constructor; auto.
  - intros Ht. congruence.
  - destruct Hbest as [Hb | Hb]; [left; exact Hb | right; left; auto].
  - intros Hu Hk Hl. apply Hboard; auto. apply Hl. left; reflexivity.
Qed.

(** A round followed by the rest of the loop. *)
Lemma post_after_round (depth : nat) (move : Z) (moves : list Z)
    (self self1 self' : Player) (r : Result) :
  round_post depth move self self1 ->
  ab_post (all_legal moves self1) moves depth self1 r self' ->
  ab_post (all_legal (move :: moves) self) (move :: moves) depth self r self'.
Proof.
  intros [Hmax Hticks Hin [t1 [Ht1 Hbal1]] Hinner Hbest Hboard]
         [Hmax' Hticks' Hto' Hin' [t2 [Ht2 Hbal2]] Hinner' Hbest' Hboard'].
  constructor.
  - congruence.
  - lia.
  - intros Ht. destruct (Hto' Ht) as (-> & k & Hk & Hle & Hd & Hj).
    split; [reflexivity|]. exists k. repeat split; try assumption; [lia|].
    intros j Hjr. destruct (Nat.lt_ge_cases j (ticks self1)); [apply Hin | apply Hj]; lia.
  - intros Ht j Hjr.
    destruct (Nat.lt_ge_cases j (ticks self1)); [apply Hin | apply (Hin' Ht)]; lia.
  - exists (t1 ++ t2). split.
    + rewrite Ht2, Ht1, app_assoc. reflexivity.
    + apply balanced_app; assumption.
  - intros Hd. destruct (Hinner Hd), (Hinner' Hd). split; congruence.
  - destruct Hbest' as [Hb' | Hb'].
    + rewrite Hb'. destruct Hbest as [Hb | Hb]; [left | right; left]; auto.
    + right; right; exact Hb'.
  - intros Hu Hk Hl.
    assert (Hb1 : board self1 = board self).
    { apply Hboard; auto. apply Hl. left; reflexivity. }
    rewrite Hboard'; auto.
    intros m Hm. rewrite Hb1. apply Hl. right; exact Hm.
Qed.

(** A round cut short by the deadline. *)
Lemma post_of_timeout (legal : Prop) (cands : list Z) (depth : nat) (move : Z)
    (moves : list Z) (self self2 : Player) (value : Z) (solved : bool) :
  ab_post legal cands (S depth) (do_play self move (current_player (board self)))
          (value, solved, true) self2 ->
  legal ->
  ab_post (all_legal (move :: moves) self) (move :: moves) depth self
          (0, false, true) (do_undo self2).
Proof.
  intros [Hmax Hticks Hto _ [t [Ht Hbal]] Hinner _ Hboard] Hlegal.
  destruct (Hto eq_refl) as (_ & k & Hk & Hle & Hd & Hj).
  destruct (Hinner ltac:(lia)) as [Hb Hs]. simpl in *.
  constructor; simpl; auto.
  - intros _. split; [reflexivity|]. exists k. auto.
  - intros Hf. discriminate.
  - exists ([Play move (current_player (board self))] ++ t ++ [Undo]). split.
    + rewrite Ht, <- !app_assoc. reflexivity.
    + apply balanced_single, Hbal.
  - intros Hu Hk' Hl. rewrite (Hboard Hu Hk' Hlegal). apply Hu, Hl. left; reflexivity.
Qed.

(** The moves a call at the root may adopt. *)
Definition root_cands (self : Player) : list Z :=
  shuffle (shuffles self)
          (generate_legal_moves (board self) (current_player (board self))).

Lemma post_of_nothing (legal : Prop) (cands : list Z) (depth : nat)
    (self : Player) (r : Result) :
  timed_out r = false -> ab_post legal cands depth self r self.
Proof.
  intros Hr. constructor; auto.
  - intros Ht. congruence.
  - intros _ j Hj. lia.
  - exists []. split; [symmetry; apply app_nil_r | constructor].
Qed.

Lemma ab_loop_post (rec : Player -> Z -> Z -> nat -> option (Result * Player))
    (D : nat) (beta : Z) (depth : nat) :
  (forall self alpha' beta', max_depth self = D ->
     exists r self',
       rec self alpha' beta' (S depth) = Some (r, self') /\
       ab_post True (root_cands self) (S depth) self r self') ->
  forall moves self alpha any_unsolved,
    max_depth self = D ->
    exists r self',
      ab_loop rec beta depth moves self alpha any_unsolved = Some (r, self') /\
      ab_post (all_legal moves self) moves depth self r self'.
Proof.
  intros Hrec. induction moves as [|move moves IH]; intros self alpha any_unsolved HD.
  - simpl. eexists; eexists. split; [reflexivity|].
    apply post_of_nothing. reflexivity.
  - cbn [ab_loop].
    destruct (Hrec (do_play self move (current_player (board self)))
                   (- beta) (- alpha) HD)
      as ([[value solved] timeout] & self2 & Hr & Hpost).
    rewrite Hr. destruct timeout.
    { eexists; eexists. split; [reflexivity|].
      eapply post_of_timeout; eauto. }
    pose proof (round_of_child True _ depth move self self2 value solved
                  (alpha <? - value) Hpost I) as Hround.
    destruct (alpha <? - value).
    + destruct (solved && (- value =? 1)).
      { eexists; eexists. split; [reflexivity|].
        apply post_of_round; [exact Hround | reflexivity]. }
      destruct (beta <=? - value).
      { eexists; eexists. split; [reflexivity|].
        apply post_of_round; [exact Hround | reflexivity]. }
      match goal with
      | |- context [ab_loop rec beta depth moves ?s ?a ?u] =>
          destruct (IH s a u) as (r & self' & Hl & Hp)
      end.
      { rewrite (round_max_depth _ _ _ _ Hround). exact HD. }
      exists r, self'. split; [exact Hl|].
      eapply post_after_round; eauto.
    + destruct (solved && (- value =? 1)).
      { eexists; eexists. split; [reflexivity|].
        apply post_of_round; [exact Hround | reflexivity]. }
      destruct (beta <=? - value).
      { eexists; eexists. split; [reflexivity|].
        apply post_of_round; [exact Hround | reflexivity]. }
      match goal with
      | |- context [ab_loop rec beta depth moves ?s ?a ?u] =>
          destruct (IH s a u) as (r & self' & Hl & Hp)
      end.
      { rewrite (round_max_depth _ _ _ _ Hround). exact HD. }
      exists r, self'. split; [exact Hl|].
      eapply post_after_round; eauto.
Qed.

(** A call that only made its deadline test. *)
Lemma post_of_test (cands : list Z) (depth : nat) (self : Player) (r : Result) :
  deadline_passed (ticks self) = timed_out r ->
  (timed_out r = true -> r = (0, false, true)) ->
  ab_post True cands depth self r (tick self).
Proof.
  intros Hd Hr. constructor; simpl; auto.
  - intros Ht. split; [auto|]. exists (ticks self).
    repeat split; [lia | congruence | intros j Hj; lia].
  - intros Ht j Hj. assert (j = ticks self) as -> by lia. congruence.
  - exists []. split; [symmetry; apply app_nil_r | constructor].
Qed.

(** From the move loop, entered after a negative deadline test, to the
    whole call. *)
Lemma post_of_loop (depth : nat) (self self0 self' : Player) (moves : list Z)
    (r : Result) :
  deadline_passed (ticks self) = false ->
  (moves, self0) =
    (if (depth =? 0)%nat
     then (shuffle (shuffles (tick self))
             (generate_legal_moves (board (tick self))
                (current_player (board (tick self)))),
           shuffled (tick self))
     else (generate_legal_moves (board (tick self))
             (current_player (board (tick self))),
           tick self)) ->
  ab_post (all_legal moves self0) moves depth self0 r self' ->
  ab_post True (root_cands self) depth self r self' /\ (ticks self < ticks self')%nat.
Proof.
  intros Hd Heq [Hmax Hticks Hto Hin Hcalls Hinner Hbest Hboard].
  assert (H0 : max_depth self0 = max_depth self /\ ticks self0 = S (ticks self) /\
               calls self0 = calls self /\ board self0 = board self /\
               best_move self0 = best_move self /\
               (depth <> 0%nat -> shuffles self0 = shuffles self) /\
               (depth <> 0%nat \/ moves = root_cands self) /\
               (shuffle_keeps -> all_legal moves self0)).
  { destruct (depth =? 0)%nat eqn:Hdep; injection Heq as -> ->; simpl;
      repeat split; auto.
    - apply Nat.eqb_eq in Hdep. intros; contradiction.
    - intros Hk m Hm. unfold all_legal. simpl. eapply Hk, Hm.
    - apply Nat.eqb_neq in Hdep. left; exact Hdep.
    - intros _ m Hm. exact Hm. }
  destruct H0 as (Hm0 & Ht0 & Hc0 & Hb0 & Hbm0 & Hs0 & Hcands & Hlegal).
  split; [|lia].
  constructor.
  - congruence.
  - lia.
  - intros Ht. destruct (Hto Ht) as (-> & k & Hk & Hle & Hdk & Hj).
    split; [reflexivity|]. exists k. repeat split; try assumption; [lia|].
    intros j Hjr. destruct (Nat.eq_dec j (ticks self)) as [-> | Hne];
      [exact Hd | apply Hj; lia].
  - intros Ht j Hjr. destruct (Nat.eq_dec j (ticks self)) as [-> | Hne];
      [exact Hd | apply (Hin Ht); lia].
  - rewrite <- Hc0. exact Hcalls.
  - intros Hdep. destruct (Hinner Hdep) as [Hb Hs].
    split; [congruence | rewrite Hs; auto].
  - destruct Hcands as [Hdep | ->].
    + left. destruct (Hinner Hdep) as [Hb _]. congruence.
    + destruct Hbest as [Hb | Hb]; [left; congruence | right; exact Hb].
  - intros Hu Hk _. rewrite <- Hb0. apply Hboard; auto.
Qed.

(** Every call with enough fuel returns, and leaves the player as
    [ab_post] says; it makes at least its own deadline test, and when
    that test is positive it makes nothing else. *)
Lemma alpha_beta_post (fuel : nat) :
  forall self alpha beta depth,
    (max_depth self - depth < fuel)%nat ->
    exists r self',
      alpha_beta fuel self alpha beta depth = Some (r, self') /\
      ab_post True (root_cands self) depth self r self' /\
      (ticks self < ticks self')%nat /\
      (deadline_passed (ticks self) = true -> r = (0, false, true) /\ self' = tick self).
Proof.
  induction fuel as [|fuel IH]; intros self alpha beta depth Hfuel; [lia|].
  cbn [alpha_beta].
  destruct (deadline_passed (ticks self)) eqn:Hd.
  { eexists; eexists. split; [reflexivity|]. split; [|split].
    - apply post_of_test; auto.
    - simpl; lia.
    - auto. }
  assert (Htest : forall r, timed_out r = false ->
            ab_post True (root_cands self) depth self r (tick self) /\
            (ticks self < ticks (tick self))%nat /\
            (false = true -> r = (0, false, true) /\ tick self = tick self)).
  { intros r Hr. split; [|split].
    - apply post_of_test; [congruence | congruence].
    - simpl; lia.
    - discriminate. }
  destruct (is_terminal (board (tick self))) as [is_term winner].
  destruct is_term.
  { destruct (winner =? current_player (board (tick self)));
      [| destruct (winner =? opponent (current_player (board (tick self))))];
      eexists; eexists; (split; [reflexivity | apply Htest; reflexivity]). }
  destruct (max_depth (tick self) <=? depth)%nat eqn:Hdepth.
  { eexists; eexists. split; [reflexivity | apply Htest; reflexivity]. }
  apply Nat.leb_gt in Hdepth. simpl in Hdepth.
  match goal with
  | |- context [let '(m, s) := ?p in _] => destruct p as [moves self0] eqn:Hpair
  end.
  destruct (ab_loop_post (alpha_beta fuel) (max_depth self) beta depth) with
    (moves := moves) (self := self0) (alpha := alpha) (any_unsolved := false)
    as (r & self' & Hl & Hp).
  { intros s a b Hs. destruct (IH s a b (S depth)) as (r & s' & Hr & Hpost & _).
    { lia. }
    eauto. }
  { destruct (depth =? 0)%nat; injection Hpair as <- <-; reflexivity. }
  exists r, self'. split; [exact Hl|].
  destruct (post_of_loop depth self self0 self' moves r Hd) as [Hpost Hlt].
  { symmetry. exact Hpair. }
  { exact Hp. }
  split; [exact Hpost | split; [exact Hlt | discriminate]].
Qed.

(** The deepening loop, when it ends. *)
Lemma deepen_post (fuel : nat) :
  forall self r self',
    deepen fuel self = Some (r, self') ->
    (ticks self < ticks self')%nat /\
    (exists t, calls self' = calls self ++ t /\ balanced t) /\
    (undo_inverts_play -> shuffle_keeps ->
     board self' = board self /\
     (best_move self' = best_move self \/
      In (best_move self')
         (generate_legal_moves (board self) (current_player (board self))))).
Proof.
  induction fuel as [|fuel IH]; intros self r self' H; [discriminate|].
  cbn [deepen] in H.
  destruct (alpha_beta_post (S (max_depth self)) self (-1) 1 0 ltac:(lia))
    as ([[result solved] timeout] & self1 & Hab & Hpost & Hlt & _).
  rewrite Hab in H.
  destruct Hpost as [_ _ _ _ [t1 [Ht1 Hbal1]] _ Hbest Hboard].
  assert (Hroot : undo_inverts_play -> shuffle_keeps ->
            board self1 = board self /\
            (best_move self1 = best_move self \/
             In (best_move self1)
                (generate_legal_moves (board self) (current_player (board self))))).
  { intros Hu Hk. split; [apply Hboard; auto|].
    destruct Hbest as [Hb | Hb]; [left; exact Hb | right; eapply Hk, Hb]. }
  destruct (negb solved && negb timeout).
  - apply IH in H. destruct H as (Hlt' & (t2 & Ht2 & Hbal2) & Hrest). simpl in *.
    split; [lia|]. split.
    + exists (t1 ++ t2). split; [rewrite Ht2, Ht1, app_assoc; reflexivity|].
      apply balanced_app; assumption.
    + intros Hu Hk. destruct (Hroot Hu Hk) as [Hb1 Hbest1].
      destruct (Hrest Hu Hk) as [Hb2 Hbest2]. rewrite Hb1 in Hb2, Hbest2.
      split; [exact Hb2|].
      destruct Hbest2 as [Hbm | Hbm]; [rewrite Hbm; exact Hbest1 | right; exact Hbm].
  - injection H as <- <-. simpl. split; [exact Hlt|]. split; [eauto|exact Hroot].
Qed.

(** The loop ends as soon as some deadline test within its first [n]
    tests is positive: every round makes a test of its own. *)
Lemma deepen_returns (n : nat) :
  forall self,
    (exists k, (ticks self <= k < ticks self + n)%nat /\ deadline_passed k = true) ->
    exists r self', deepen n self = Some (r, self').
Proof.
  induction n as [|n IH]; intros self (k & Hk & Hd); [lia|].
  cbn [deepen].
  destruct (alpha_beta_post (S (max_depth self)) self (-1) 1 0 ltac:(lia))
    as ([[result solved] timeout] & self1 & Hab & Hpost & Hlt & _).
  rewrite Hab.
  destruct (negb solved && negb timeout) eqn:Hgo; [|eauto].
  apply andb_prop in Hgo as [_ Hto]. apply negb_true_iff in Hto. subst timeout.
  pose proof (post_in_time _ _ _ _ _ _ Hpost eq_refl) as Hin.
  apply IH. exists k. simpl. split; [|exact Hd].
  destruct (Nat.lt_ge_cases k (ticks self1)) as [Hlt1 | Hge]; [|lia].
  rewrite Hin in Hd by lia. discriminate.
Qed.


(** A root position the player can name moves on: the copy taken by
    [solve_board] has an empty point, and every point the board offers
    (as empty, as legal, or as tactically relevant) lies on a row of the
    board, so that its text is not the pass text. *)
Definition offered (b : GoBoard) (p : Z) : Prop :=
  In p (get_empty_points b) \/
  In p (generate_legal_moves b (current_player b)) \/
  In p (get_potential_moves b).

Definition root_ok (b : GoBoard) : Prop :=
  get_empty_points (copy b) <> [] /\
  forall p, offered (copy b) p ->
    fst (Gtp.point_to_coord p (size (copy b))) <> PASS.

Lemma rule_offered (self : Player) (x : Z) :
  rule self = Some (Some x) -> In x (get_potential_moves (board self)).
Proof.
  unfold rule. destruct (forallb _ _); [|discriminate].
  intros H. injection H as H.
  apply head_Some_elem_of, list_elem_of_In in H.
  repeat (apply in_app_or in H; destruct H as [H | H]);
    apply filter_In in H; tauto.
Qed.

Lemma solve_setup_board (self : Player) (b : GoBoard) :
  board (solve_setup self b) = copy b /\
  calls (solve_setup self b) = calls self /\
  ticks (solve_setup self b) = ticks self /\
  (get_empty_points (copy b) <> [] ->
   In (best_move (solve_setup self b)) (get_empty_points (copy b))).
Proof.
  unfold solve_setup. simpl.
  destruct (get_empty_points (copy b)) as [|p ps]; simpl; repeat split; auto;
    congruence.
Qed.

(** What any returning [solve_board] leaves behind. *)
Lemma solve_board_post (fuel : nat) (self : Player) (b : GoBoard)
    (v : Verdict) (self' : Player) (b' : GoBoard) :
  solve_board fuel self b = Some (v, self', b') ->
  b' = b /\
  (exists t, calls self' = calls self ++ t /\ balanced t) /\
  (undo_inverts_play -> shuffle_keeps ->
   board self' = copy b /\
   (get_empty_points (copy b) <> [] -> offered (copy b) (best_move self'))).
Proof.
  unfold solve_board.
  destruct (solve_setup_board self b) as (Hb0 & Hc0 & _ & Hbest0).
  set (self0 := solve_setup self b) in *.
  destruct (rule self0) as [[x|]|] eqn:Hrule; [| |discriminate].
  - destruct (best_move_text _); [|discriminate].
    intros H. injection H as <- <- <-. simpl. split; [reflexivity|]. split.
    + exists []. rewrite app_nil_r. split; [exact Hc0 | constructor].
    + intros _ _. split; [exact Hb0|]. intros _. right; right.
      rewrite <- Hb0. apply rule_offered, Hrule.
  - destruct (deepen fuel (set_max_depth self0 1))
      as [[[[result solved] timeout] self1]|] eqn:Hdeep; [|discriminate].
    apply deepen_post in Hdeep. destruct Hdeep as (_ & (t & Ht & Hbal) & Hroot).
    simpl in Ht, Hroot. rewrite Hb0 in Hroot. rewrite Hc0 in Ht.
    assert (Hfacts :
      (exists t, calls self1 = calls self ++ t /\ balanced t) /\
      (undo_inverts_play -> shuffle_keeps ->
       board self1 = copy b /\
       (get_empty_points (copy b) <> [] -> offered (copy b) (best_move self1)))).
    { split; [eauto|]. intros Hu Hk. destruct (Hroot Hu Hk) as [Hb1 Hbest1].
      split; [exact Hb1|]. intros Hne.
      destruct Hbest1 as [-> | Hin]; [left; auto | right; left; exact Hin]. }
    intros H.
    assert (Hout : self1 = self' /\ b = b').
    { destruct timeout; [injection H as _ <- <-; auto|].
      destruct (result =? 1);
        [destruct (best_move_text self1); [injection H as _ <- <-; auto | discriminate]|].
      destruct (result =? -1); [injection H as _ <- <-; auto|].
      destruct (best_move_text self1); [injection H as _ <- <-; auto | discriminate]. }
    destruct Hout as [<- <-]. split; [reflexivity | exact Hfacts].
Qed.

(** C4.  Every [alpha_beta] call with enough fuel returns.  Its deadline
    test comes first: when it is positive the call returns
    [(0, False, True)] having done nothing else.  A call that reports a
    timeout reports it unsolved with value 0, and the positive test was
    the last test made anywhere below it; a call that reports no timeout
    saw only negative tests.  So a positive test anywhere in the subtree
    is reported as an unsolved timeout by the call, at every level. *)
Theorem timeout_propagates (fuel : nat) (self : Player) (alpha beta : Z)
    (depth : nat) :
  (max_depth self - depth < fuel)%nat ->
  exists value solved timeout self',
    alpha_beta fuel self alpha beta depth = Some ((value, solved, timeout), self') /\
    (deadline_passed (ticks self) = true ->
     (value, solved, timeout) = (0, false, true) /\ self' = tick self) /\
    (timeout = true ->
     value = 0 /\ solved = false /\
     exists k, ticks self' = S k /\ (ticks self <= k)%nat /\
               deadline_passed k = true /\
               forall j, (ticks self <= j < k)%nat -> deadline_passed j = false) /\
    (forall j, (ticks self <= j < ticks self')%nat -> deadline_passed j = true ->
               timeout = true /\ solved = false).
Proof.
  intros Hfuel.
  destruct (alpha_beta_post fuel self alpha beta depth Hfuel)
    as ([[value solved] timeout] & self' & Hab & Hpost & _ & Hentry).
  exists value, solved, timeout, self'. split; [exact Hab|]. split; [exact Hentry|].
  destruct Hpost as [_ _ Hto Hin _ _ _ _]. simpl in Hto, Hin. split.
  - intros ->. destruct (Hto eq_refl) as (Hr & Hk). injection Hr as -> ->. auto.
  - intros j Hj Hd. destruct timeout.
    + destruct (Hto eq_refl) as (Hr & _). injection Hr as -> ->. auto.
    + rewrite (Hin eq_refl j Hj) in Hd. discriminate.
Qed.

(** C5.  Whenever [solve_board] returns, the caller's board object is
    as it was passed in, and the calls made on the player's own board
    pair every [play_move] with an [undo].  The same holds of every
    single [alpha_beta] call, whatever it returns, a timeout included;
    and where [undo] takes back a legal move, the player's board is the
    same position after each call as before: after [solve_board], the
    copy it took of the caller's board. *)
Theorem solver_restores_board (fuel : nat) (self : Player) (b : GoBoard)
    (v : Verdict) (self' : Player) (b' : GoBoard) :
  solve_board fuel self b = Some (v, self', b') ->
  b' = b /\
  (exists t, calls self' = calls self ++ t /\ balanced t) /\
  (forall fuel' s alpha beta depth,
     (max_depth s - depth < fuel')%nat ->
     exists r s',
       alpha_beta fuel' s alpha beta depth = Some (r, s') /\
       (exists t, calls s' = calls s ++ t /\ balanced t) /\
       (undo_inverts_play -> shuffle_keeps -> board s' = board s)) /\
  (undo_inverts_play -> shuffle_keeps -> board self' = copy b).
Proof.
  intros H. apply solve_board_post in H. destruct H as (Hb & Hcalls & Hboard).
  split; [exact Hb|]. split; [exact Hcalls|]. split.
  - intros fuel' s alpha beta depth Hfuel.
    destruct (alpha_beta_post fuel' s alpha beta depth Hfuel)
      as (r & s' & Hab & Hpost & _).
    exists r, s'. split; [exact Hab|].
    destruct Hpost as [_ _ _ _ Hc _ _ Hbd]. split; [exact Hc|]. auto.
  - intros Hu Hk. apply (Hboard Hu Hk).
Qed.


(** C9.  On a board without empty points [get_move] answers ["pass"]
    at once: the player and the board are as before, no deadline test,
    shuffle or board call was made.  On a board with an empty point whose
    copy names its points on rows, whatever [get_move] answers is not
    ["pass"]. *)
Theorem get_move_pass (fuel : nat) (self : Player) (b : GoBoard) (color : pyval) :
  (get_empty_points b = [] ->
   get_move fuel self b color = Some ("pass"%string, self, b)) /\
  (get_empty_points b <> [] ->
   undo_inverts_play -> shuffle_keeps ->
   root_ok (with_current_player b (side_selected color)) ->
   forall text self' b',
     get_move fuel self b color = Some (text, self', b') ->
     text <> "pass"%string).
Proof.
  unfold get_move. split.
  - intros ->. reflexivity.
  - intros Hne Hu Hk [Hpts Hrows] text self' b'.
    destruct (get_empty_points b) as [|p ps]; [congruence|]. simpl.
    destruct (solve_board _ _ _) as [[[[winner move] self1] b1]|] eqn:Hsolve;
      [|discriminate].
    apply solve_board_post in Hsolve. destruct Hsolve as (_ & _ & Hboard).
    destruct (Hboard Hu Hk) as [Hb1 Hoff]. specialize (Hoff Hpts).
    unfold best_move_text. rewrite Hb1.
    destruct (Gtp.format_point _) as [s|] eqn:Hfmt; [|discriminate].
    simpl. intros H. injection H as <- _ _.
    eapply Gtp.format_point_lower_not_pass; [|exact Hfmt].
    apply Hrows, Hoff.
Qed.

(** C10 (amended).  An integer colour never equals the string ['w'], so
    it selects Black, as does everything but that string: on a board with
    an empty point, [get_move] with an integer colour is [solve_board] run
    on the caller's board with Black to move, the board being left with
    Black as current player. *)
Theorem integer_colour_selects_black (fuel : nat) (self : Player) (b : GoBoard)
    (n : Z) :
  side_selected (PyInt n) = BLACK /\
  (forall c, side_selected c = WHITE <-> c = PyStr "w") /\
  (get_empty_points b <> [] ->
   get_move fuel self b (PyInt n) =
     match solve_board fuel self (with_current_player b BLACK) with
     | None => None
     | Some ((winner, move), self', b') =>
         match best_move_text self' with
         | None => None
         | Some text => Some (text, self', with_last_move b' move)
         end
     end) /\
  (get_empty_points b <> [] ->
   forall text self' b',
     get_move fuel self b (PyInt n) = Some (text, self', b') ->
     current_player b' = BLACK).
Proof.
  split; [reflexivity|]. split.
  { intros c. unfold side_selected. destruct c as [k | s0]; simpl.
    - split; [intros H; vm_compute in H | ]; discriminate.
    - destruct (String.eqb s0 "w") eqn:Hs.
      + apply String.eqb_eq in Hs. subst. split; reflexivity.
      + apply String.eqb_neq in Hs. split; [intros H; vm_compute in H; discriminate|].
        intros H. injection H as ->. contradiction. }
  assert (Hget : get_empty_points b <> [] ->
    get_move fuel self b (PyInt n) =
     match solve_board fuel self (with_current_player b BLACK) with
     | None => None
     | Some ((winner, move), self', b') =>
         match best_move_text self' with
         | None => None
         | Some text => Some (text, self', with_last_move b' move)
         end
     end).
  { intros Hne. unfold get_move.
    destruct (get_empty_points b); [congruence|]. reflexivity. }
  split; [exact Hget|].
  intros Hne text self' b'. rewrite (Hget Hne).
  destruct (solve_board _ _ _) as [[[[winner move] self1] b1]|] eqn:Hsolve;
    [|discriminate].
  apply solve_board_post in Hsolve. destruct Hsolve as (-> & _).
  destruct (best_move_text self1); [|discriminate].
  intros H. injection H as _ _ <-. reflexivity.
Qed.


(** *** The order in which [rule] prefers moves *)

Lemma head_filter_first {A : Type} (P : A -> bool) (l : list A) (x : A) :
  head (List.filter P l) = Some x ->
  exists pre post,
    l = pre ++ x :: post /\ P x = true /\ forall y, In y pre -> P y = false.
Proof.
  induction l as [|a l IH]; simpl; [discriminate|].
  destruct (P a) eqn:Ha; simpl.
  - intros H. injection H as ->. exists [], l. repeat split; [exact Ha|].
    intros y [].
  - intros H. destruct (IH H) as (pre & post & -> & Hx & Hpre).
    exists (a :: pre), post. repeat split; [exact Hx|].
    intros y [<- | Hy]; auto.
Qed.

Lemma filter_nil_none {A : Type} (P : A -> bool) (l : list A) :
  List.filter P l = [] -> forall y, In y l -> P y = false.
Proof.
  intros Hnil y Hy. destruct (P y) eqn:Hp; [|reflexivity].
  assert (Hin : In y (List.filter P l)) by (apply filter_In; auto).
  rewrite Hnil in Hin. destruct Hin.
Qed.

Lemma rule_in_range (self : Player) :
  (forall move, In move (get_potential_moves (board self)) ->
     0 <= analyze (board self) move <= 3) ->
  rule self =
    Some (head (List.filter (fun move => analyze (board self) move =? 1)
                            (get_potential_moves (board self)) ++
                List.filter (fun move => analyze (board self) move =? 2)
                            (get_potential_moves (board self)) ++
                List.filter (fun move => analyze (board self) move =? 3)
                            (get_potential_moves (board self)))).
Proof.
  intros Hrange. unfold rule.
  replace (forallb _ _) with true; [reflexivity|].
  symmetry. apply forallb_forall. intros move Hin.
  specialize (Hrange move Hin). cbv zeta.
  apply andb_true_intro. split; [apply Z.leb_le | apply Z.leb_le]; lia.
Qed.

(** X15.  With [analyze] answering 0 to 3 on the potential moves, [rule]
    proposes nothing exactly when every answer is 0; otherwise it proposes
    a potential move whose answer is the least answer other than 0 that
    any potential move gets, and the first such move in the order of the
    potential moves. *)
Theorem rule_priority (self : Player) :
  (forall move, In move (get_potential_moves (board self)) ->
     0 <= analyze (board self) move <= 3) ->
  (rule self = Some None /\
   forall move, In move (get_potential_moves (board self)) ->
     analyze (board self) move = 0) \/
  exists x pre post,
    rule self = Some (Some x) /\
    get_potential_moves (board self) = pre ++ x :: post /\
    1 <= analyze (board self) x <= 3 /\
    (forall y, In y pre -> analyze (board self) y <> analyze (board self) x) /\
    (forall y, In y (get_potential_moves (board self)) ->
       analyze (board self) y = 0 \/
       analyze (board self) x <= analyze (board self) y).
Proof.
  intros Hrange. rewrite (rule_in_range self Hrange).
  set (b := board self) in *. set (l := get_potential_moves b) in *.
  assert (Hfound : forall n x,
            1 <= n <= 3 ->
            head (List.filter (fun move => analyze b move =? n) l) = Some x ->
            (forall y k, In y l -> 1 <= k < n -> analyze b y <> k) ->
            exists pre post,
              l = pre ++ x :: post /\
              1 <= analyze b x <= 3 /\
              (forall y, In y pre -> analyze b y <> analyze b x) /\
              (forall y, In y l -> analyze b y = 0 \/ analyze b x <= analyze b y)).
  { intros n x Hn Hhead Hless.
    destruct (head_filter_first _ _ _ Hhead) as (pre & post & Hl & Hx & Hpre).
    apply Z.eqb_eq in Hx. exists pre, post. split; [exact Hl|]. split; [lia|]. split.
    - intros y Hy. specialize (Hpre y Hy). apply Z.eqb_neq in Hpre. lia.
    - intros y Hy. pose proof (Hrange y Hy) as Hr.
      destruct (Z.eq_dec (analyze b y) 0) as [H0 | H0]; [left; exact H0|].
      right. destruct (Z_lt_le_dec (analyze b y) n) as [Hlt | Hge]; [|lia].
      exfalso. apply (Hless y (analyze b y) Hy); [lia | reflexivity]. }
  assert (Hnone : forall n, List.filter (fun move => analyze b move =? n) l = [] ->
            forall y, In y l -> analyze b y <> n).
  { intros n Hnil y Hy. apply Z.eqb_neq.
    exact (filter_nil_none _ _ Hnil y Hy). }
  destruct (List.filter (fun move => analyze b move =? 1) l) as [|x1 t1] eqn:H1.
  - destruct (List.filter (fun move => analyze b move =? 2) l) as [|x2 t2] eqn:H2.
    + destruct (List.filter (fun move => analyze b move =? 3) l) as [|x3 t3] eqn:H3.
      * left. split; [reflexivity|]. intros y Hy.
        pose proof (Hrange y Hy). pose proof (Hnone 1 H1 y Hy).
        pose proof (Hnone 2 H2 y Hy). pose proof (Hnone 3 H3 y Hy). lia.
      * right. destruct (Hfound 3 x3 ltac:(lia)) as (pre & post & Hrest).
        { rewrite H3. reflexivity. }
        { intros y k Hy Hk. pose proof (Hnone 1 H1 y Hy).
          pose proof (Hnone 2 H2 y Hy). lia. }
        exists x3, pre, post. split; [reflexivity | exact Hrest].
    + right. destruct (Hfound 2 x2 ltac:(lia)) as (pre & post & Hrest).
      { rewrite H2. reflexivity. }
      { intros y k Hy Hk. pose proof (Hnone 1 H1 y Hy). lia. }
      exists x2, pre, post. split; [reflexivity | exact Hrest].
  - right. destruct (Hfound 1 x1 ltac:(lia)) as (pre & post & Hrest).
    { rewrite H1. reflexivity. }
    { intros y k Hy Hk. lia. }
    exists x1, pre, post. split; [reflexivity | exact Hrest].
Qed.

(** *** [solve_board] returns once the clock has run out *)

(** No deadline test is made after the first positive one. *)
Lemma deepen_ticks (n : nat) :
  forall self r self' k,
    deepen n self = Some (r, self') ->
    (ticks self <= k)%nat -> deadline_passed k = true ->
    (ticks self' <= S k)%nat.
Proof.
  induction n as [|n IH]; intros self r self' k H Hle Hd; [discriminate|].
  cbn [deepen] in H.
  destruct (alpha_beta_post (S (max_depth self)) self (-1) 1 0 ltac:(lia))
    as ([[result solved] timeout] & self1 & Hab & Hpost & Hlt & _).
  rewrite Hab in H.
  destruct timeout.
  - rewrite andb_false_r in H. injection H as <- <-. simpl.
    destruct (post_timeout _ _ _ _ _ _ Hpost eq_refl)
      as (_ & k' & Hk' & Hge & Hdk' & Hfalse).
    rewrite Hk'. destruct (Nat.le_gt_cases k' k) as [Hle' | Hgt]; [lia|].
    rewrite Hfalse in Hd by lia. discriminate.
  - pose proof (post_in_time _ _ _ _ _ _ Hpost eq_refl) as Hin.
    assert (Hle1 : (ticks self1 <= k)%nat).
    { destruct (Nat.le_gt_cases (ticks self1) k) as [Hle' | Hgt]; [exact Hle'|].
      rewrite Hin in Hd by lia. discriminate. }
    destruct (negb solved && negb false).
    + eapply IH; [exact H | exact Hle1 | exact Hd].
    + injection H as <- <-. simpl. lia.
Qed.

(** X16.  Where [undo] takes back a legal move, the shuffle invents no
    move, [analyze] answers 0 to 3 and every point the copied board offers
    has a text, [solve_board] returns as soon as the clock runs out: if
    the deadline test numbered [k] is positive, then with one deepening
    round allowed for every test up to it the call returns a verdict,
    leaves the caller's board as it was and has made no test after that
    one. *)
Theorem solve_board_returns (self : Player) (b : GoBoard) (k fuel : nat) :
  undo_inverts_play -> shuffle_keeps ->
  (forall move, In move (get_potential_moves (copy b)) ->
     0 <= analyze (copy b) move <= 3) ->
  (forall p, offered (copy b) p ->
     exists text, Gtp.format_point (Gtp.point_to_coord p (size (copy b))) = Some text) ->
  get_empty_points (copy b) <> [] ->
  (ticks self <= k)%nat -> deadline_passed k = true ->
  (k - ticks self < fuel)%nat ->
  exists v self',
    solve_board fuel self b = Some (v, self', b) /\
    (ticks self' <= S k)%nat.
Proof.
  intros Hu Hk Hrange Hfmt Hne Hle Hd Hfuel. unfold solve_board.
  destruct (solve_setup_board self b) as (Hb0 & Hc0 & Ht0 & Hbest0).
  set (self0 := solve_setup self b) in *.
  assert (Htext : forall s, board s = copy b -> offered (copy b) (best_move s) ->
            exists text, best_move_text s = Some text).
  { intros s Hs Ho. unfold best_move_text. rewrite Hs.
    destruct (Hfmt _ Ho) as [t ->]. simpl. eauto. }
  rewrite (rule_in_range self0) by (rewrite Hb0; exact Hrange).
  match goal with |- context [head ?l] => destruct (head l) as [x|] eqn:Hhead end.
  - assert (Hrule : rule self0 = Some (Some x)).
    { rewrite (rule_in_range self0) by (rewrite Hb0; exact Hrange).
      rewrite Hhead. reflexivity. }
    destruct (Htext (set_best_move self0 x)) as [text Ht].
    + exact Hb0.
    + right; right. rewrite <- Hb0. apply rule_offered, Hrule.
    + rewrite Ht. eexists; eexists. split; [reflexivity|]. simpl. lia.
  - destruct (deepen_returns fuel (set_max_depth self0 1))
      as ([[result solved] timeout] & self1 & Hdeep).
    { exists k. simpl. rewrite Ht0. split; [lia | exact Hd]. }
    rewrite Hdeep.
    assert (Hticks : (ticks self1 <= S k)%nat).
    { eapply deepen_ticks; [exact Hdeep | simpl; lia | exact Hd]. }
    apply deepen_post in Hdeep. destruct Hdeep as (_ & _ & Hroot).
    destruct (Hroot Hu Hk) as [Hb1 Hbest1]. simpl in Hb1, Hbest1.
    rewrite Hb0 in Hb1, Hbest1.
    assert (Hoff : offered (copy b) (best_move self1)).
    { destruct Hbest1 as [-> | Hin]; [left; apply Hbest0, Hne | right; left; exact Hin]. }
    destruct (Htext self1 Hb1 Hoff) as [text Ht].
    destruct timeout; [eauto|].
    destruct (result =? 1); [rewrite Ht; eauto|].
    destruct (result =? -1); [eauto|]. rewrite Ht; eauto.
Qed.

End Player.

Arguments mkBoard {Rest}.
Arguments mkPlayer {Rest}.
Arguments size {Rest}.
Arguments current_player {Rest}.
Arguments last_move {Rest}.
Arguments rest {Rest}.
Arguments board {Rest}.
Arguments best_move {Rest}.
Arguments max_depth {Rest}.
Arguments ticks {Rest}.
Arguments shuffles {Rest}.
Arguments calls {Rest}.
Arguments tick {Rest}.
Arguments set_max_depth {Rest}.
Arguments with_current_player {Rest}.
Arguments with_last_move {Rest}.

(** *** Games given as trees

    An instance of the board interface in which a position is a finite game
    tree: a node is either over, with the winner's colour ([EMPTY] for a
    draw), or offers moves leading to further nodes.  The board keeps the
    nodes passed on the way as its history, for [undo]. *)

#[local] Unset Elimination Schemes.
Inductive tree : Type :=
  | Tree (ended : option Z) (moves : list (Z * tree)).
#[local] Set Elimination Schemes.

Definition ended (t : tree) : option Z := let 'Tree e _ := t in e.
Definition moves_of (t : tree) : list (Z * tree) := let 'Tree _ ms := t in ms.

Record position := mkPosition {
  here : tree;
  history : list (tree * Z)
}.

Definition TBoard : Type := GoBoard position.

Fixpoint child (ms : list (Z * tree)) (move : Z) : option tree :=
  match ms with
  | [] => None
  | (m, t) :: ms' => if m =? move then Some t else child ms' move
  end.

Definition t_moves (b : TBoard) : list Z := map fst (moves_of (here (rest b))).

Definition t_is_terminal (b : TBoard) : bool * Z :=
  match ended (here (rest b)) with
  | Some w => (true, w)
  | None => (false, EMPTY)
  end.

Definition t_play_move (b : TBoard) (move color : Z) : TBoard :=
  match child (moves_of (here (rest b))) move with
  | Some t =>
      mkBoard (size b) (opponent color) (last_move b)
              (mkPosition t ((here (rest b), current_player b) :: history (rest b)))
  | None => b
  end.

Definition t_undo (b : TBoard) : TBoard :=
  match history (rest b) with
  | (t, c) :: h => mkBoard (size b) c (last_move b) (mkPosition t h)
  | [] => b
  end.

Definition t_copy (b : TBoard) : TBoard :=
  mkBoard (size b) (current_player b) (last_move b)
          (mkPosition (here (rest b)) []).

Definition t_check (b : TBoard) : Verdict := ("unknown"%string, None).

(** The game-theoretic value of a node for the side to move: 1 a win, -1 a
    loss, 0 a draw. *)
Fixpoint negamax (t : tree) (to_move : Z) {struct t} : Z :=
  match t with
  | Tree (Some w) _ =>
      if w =? to_move then 1 else if w =? opponent to_move then -1 else 0
  | Tree None ms =>
      (fix best (l : list (Z * tree)) : Z :=
         match l with
         | [] => -1
         | (_, c) :: l' => Z.max (- negamax c (opponent to_move)) (best l')
         end) ms
  end.

Definition t_board (t : tree) (to_move : Z) : TBoard :=
  mkBoard 7 to_move None (mkPosition t []).

Definition t_player (b : TBoard) : Player position := mkPlayer b 0 0 0 0 [].

Definition t_alpha_beta (deadline_passed : nat -> bool) :=
  alpha_beta position t_is_terminal t_play_move t_undo
             (fun b _ => t_moves b) deadline_passed (fun _ l => l).

Definition t_solve_board (deadline_passed : nat -> bool) :=
  solve_board position t_moves t_is_terminal t_play_move t_undo t_copy t_check
              (fun _ => []) (fun _ _ => 0) (fun b _ => t_moves b)
              deadline_passed (fun _ l => l).

Definition t_get_move (deadline_passed : nat -> bool) :=
  get_move position t_moves t_is_terminal t_play_move t_undo t_copy t_check
           (fun _ => []) (fun _ _ => 0) (fun b _ => t_moves b)
           deadline_passed (fun _ l => l).

Lemma child_of_move (ms : list (Z * tree)) (move : Z) :
  In move (map fst ms) -> exists t, child ms move = Some t.
Proof.
  induction ms as [|[m t] ms IH]; simpl; [contradiction|].
  intros [-> | H].
  - rewrite Z.eqb_refl. eauto.
  - destruct (m =? move); eauto.
Qed.

Lemma t_undo_inverts :
  undo_inverts_play position t_play_move t_undo (fun b _ => t_moves b).
Proof.
  intros b move Hin. unfold t_moves in Hin.
  destruct (child_of_move _ _ Hin) as [t Ht].
  unfold t_play_move. rewrite Ht. unfold t_undo. simpl.
  destruct b as [sz cp lm [h hist]]. reflexivity.
Qed.

Lemma plain_shuffle_keeps : shuffle_keeps (fun _ l => l).
Proof. intros k l move H. exact H. Qed.

(** *** Win and loss verdicts on tree games

    The search over a tree game whose nodes offer each move once. *)

Definition replies (to_move : Z) (ms : list (Z * tree)) : Z :=
  fold_right (fun mc acc => Z.max (- negamax (snd mc) (opponent to_move)) acc) (-1) ms.

Fixpoint wf (t : tree) : Prop :=
  match t with
  | Tree _ ms =>
      NoDup (map fst ms) /\
      (fix all (l : list (Z * tree)) : Prop :=
         match l with
         | [] => True
         | mc :: l' => wf (snd mc) /\ all l'
         end) ms
  end.

Definition node (s : Player position) : tree := here (rest (board s)).
Definition mover (s : Player position) : Z := current_player (board s).

(** What a call that did not time out says of the position [b] it was
    made on: the board is [b] again, the value is -1, 0 or 1, and a value of
    1 or -1 is marked solved and is the value of the game. *)
Definition verdict_ok (b : TBoard) (r : Result) (s' : Player position) : Prop :=
  board s' = b /\
  -1 <= fst (fst r) <= 1 /\
  (fst (fst r) = 1 ->
   snd (fst r) = true /\ negamax (here (rest b)) (current_player b) = 1) /\
  (fst (fst r) = -1 ->
   snd (fst r) = true /\ negamax (here (rest b)) (current_player b) = -1).

Lemma negamax_node (ms : list (Z * tree)) (c : Z) :
  negamax (Tree None ms) c = replies c ms.
Proof.
  unfold replies. simpl.
  induction ms as [|[m ch] ms IH]; simpl; [reflexivity|].
  rewrite IH. reflexivity.
Qed.

Lemma negamax_ge (t : tree) (c : Z) : -1 <= negamax t c.
Proof.
  destruct t as [[w|] ms].
  - simpl. destruct (w =? c), (w =? opponent c); lia.
  - rewrite negamax_node. unfold replies.
    induction ms as [|mc ms IH]; simpl; lia.
Qed.

Lemma replies_le (c : Z) (ms : list (Z * tree)) : replies c ms <= 1.
Proof.
  unfold replies. induction ms as [|mc ms IH]; simpl; [lia|].
  pose proof (negamax_ge (snd mc) (opponent c)). lia.
Qed.

Lemma replies_win (c : Z) (ms : list (Z * tree)) (m : Z) (ch : tree) :
  In (m, ch) ms -> negamax ch (opponent c) = -1 -> replies c ms = 1.
Proof.
  intros Hin Hch. induction ms as [|mc ms IH]; [contradiction|].
  change (replies c (mc :: ms))
    with (Z.max (- negamax (snd mc) (opponent c)) (replies c ms)).
  pose proof (negamax_ge (snd mc) (opponent c)).
  pose proof (replies_le c ms).
  destruct Hin as [-> | Hin].
  - simpl. rewrite Hch. lia.
  - rewrite (IH Hin). lia.
Qed.

Lemma replies_loss (c : Z) (ms : list (Z * tree)) :
  (forall m ch, In (m, ch) ms -> negamax ch (opponent c) = 1) -> replies c ms = -1.
Proof.
  intros H. induction ms as [|[m ch] ms IH]; [reflexivity|].
  change (replies c ((m, ch) :: ms))
    with (Z.max (- negamax ch (opponent c)) (replies c ms)).
  rewrite (H m ch) by (left; reflexivity).
  rewrite IH; [reflexivity|]. intros m' ch' Hin. apply (H m' ch'). right; exact Hin.
Qed.

Lemma wf_child (e : option Z) (ms : list (Z * tree)) (m : Z) (ch : tree) :
  wf (Tree e ms) -> In (m, ch) ms -> wf ch.
Proof.
  simpl. intros [_ Hall]. induction ms as [|mc ms IH]; [contradiction|].
  destruct Hall as [Hmc Hall]. intros [-> | Hin]; [exact Hmc | auto].
Qed.

Lemma child_in (ms : list (Z * tree)) (m : Z) (ch : tree) :
  child ms m = Some ch -> In (m, ch) ms.
Proof.
  induction ms as [|[m' t] ms IH]; simpl; [discriminate|].
  destruct (m' =? m) eqn:Hm.
  - apply Z.eqb_eq in Hm. intros H. injection H as ->. left. congruence.
  - intros H. right. auto.
Qed.

Lemma child_unique (ms : list (Z * tree)) (m : Z) (ch ch' : tree) :
  NoDup (map fst ms) -> In (m, ch) ms -> In (m, ch') ms -> ch = ch'.
Proof.
  induction ms as [|[m0 t] ms IH]; simpl; [contradiction|].
  intros Hnd. apply NoDup_cons in Hnd as [Hnotin Hnd].
  assert (Hfst : forall x, In (m0, x) ms -> False).
  { intros x Hx. apply Hnotin. apply list_elem_of_In.
    apply (in_map fst ms (m0, x)), Hx. }
  intros [H1 | H1] [H2 | H2].
  - congruence.
  - injection H1 as -> ->. destruct (Hfst _ H2).
  - injection H2 as -> ->. destruct (Hfst _ H1).
  - auto.
Qed.

Section TreeSearch.

(** Any deadline, and any shuffle that neither drops nor invents moves. *)
Variable deadline_passed : nat -> bool.
Variable shuffle : nat -> list Z -> list Z.
Hypothesis shuffle_same : forall k l m, In m (shuffle k l) <-> In m l.

Let search :=
  alpha_beta position t_is_terminal t_play_move t_undo
             (fun b _ => t_moves b) deadline_passed shuffle.

Lemma loop_sound (rec : Player position -> Z -> Z -> nat -> option (Result * Player position))
    (beta : Z) (depth : nat) (b : TBoard) (all : list (Z * tree)) :
  here (rest b) = Tree None all ->
  wf (Tree None all) ->
  beta <= 1 ->
  (forall s a b' r s',
     wf (node s) -> -1 <= a -> a < b' -> b' <= 1 ->
     rec s a b' (S depth) = Some (r, s') -> timed_out r = false ->
     verdict_ok (board s) r s') ->
  forall rem s alpha any_unsolved r s',
    board s = b ->
    (forall m, In m rem -> In m (map fst all)) ->
    -1 <= alpha -> alpha < beta ->
    (alpha = -1 ->
     any_unsolved = false /\
     forall m ch, In (m, ch) all ->
       In m rem \/ negamax ch (opponent (current_player b)) = 1) ->
    ab_loop position t_play_move t_undo rec beta depth rem s alpha any_unsolved
      = Some (r, s') ->
    timed_out r = false ->
    verdict_ok b r s'.
Proof.
  intros Hhere Hwf Hbeta Hrec.
  induction rem as [|move rem IH];
    intros s alpha any_unsolved r s' Hb Hrem Ha Hab Hinv Hloop Hto.
  - simpl in Hloop. injection Hloop as <- <-. unfold verdict_ok. simpl.
    split; [exact Hb|]. split; [lia|]. split; [intros; lia|].
    intros ->. destruct (Hinv eq_refl) as [-> Hdone]. split; [reflexivity|].
    rewrite Hhere, negamax_node. apply replies_loss.
    intros m ch Hin. destruct (Hdone m ch Hin) as [[] | H]. exact H.
  - cbn [ab_loop] in Hloop.
    destruct (child_of_move all move (Hrem move ltac:(left; reflexivity))) as [ch Hch].
    pose proof (child_in _ _ _ Hch) as Hin.
    set (s1 := do_play position t_play_move s move (current_player (board s))) in *.
    assert (Hb1 : board s1 =
              mkBoard (size b) (opponent (current_player b)) (last_move b)
                (mkPosition ch ((here (rest b), current_player b) :: history (rest b)))).
    { unfold s1. simpl. rewrite Hb. unfold t_play_move. rewrite Hhere. simpl.
      rewrite Hch. reflexivity. }
    destruct (rec s1 (- beta) (- alpha) (S depth)) as [[[[cv solved] timeout] s2]|] eqn:Hr;
      [|discriminate].
    destruct timeout.
    { injection Hloop as <- <-. discriminate. }
    assert (Hwf1 : wf (node s1)).
    { unfold node. rewrite Hb1. simpl. eapply wf_child; eauto. }
    destruct (Hrec s1 (- beta) (- alpha) (cv, solved, false) s2 Hwf1
                ltac:(lia) ltac:(lia) ltac:(lia) Hr eq_refl)
      as (Hb2 & Hrange & Hwin & Hloss).
    rewrite Hb1 in Hwin, Hloss. simpl in Hrange, Hwin, Hloss.
    assert (Hb3 : board (do_undo position t_undo s2) = b).
    { simpl. rewrite Hb2, Hb1. unfold t_undo. simpl.
      destruct b as [sz cp lm [h hist]]. reflexivity. }
    set (s3 := do_undo position t_undo s2) in *.
    assert (Hstep : forall s4 alpha',
              board s4 = b ->
              (alpha', s4) =
                (if alpha <? - cv
                 then (- cv, if (depth =? 0)%nat
                             then set_best_move position s3 move else s3)
                 else (alpha, s3)) ->
              (if solved && (- cv =? 1) then Some ((1, true, false), s4)
               else if beta <=? - cv then Some ((beta, true, false), s4)
               else ab_loop position t_play_move t_undo rec beta depth rem s4 alpha'
                      (if negb solved then true else any_unsolved)) = Some (r, s') ->
              verdict_ok b r s').
    { intros s4 alpha' Hb4 Hpair Hres.
      assert (Halpha' : alpha' = Z.max alpha (- cv)).
      { destruct (alpha <? - cv) eqn:Hlt; injection Hpair as -> _;
          [apply Z.ltb_lt in Hlt | apply Z.ltb_ge in Hlt]; lia. }
      destruct (solved && (- cv =? 1)) eqn:Hsw.
      { injection Hres as <- <-. apply andb_prop in Hsw as [_ Hv].
        apply Z.eqb_eq in Hv. unfold verdict_ok. simpl.
        split; [exact Hb4|]. split; [lia|]. split; [|intros; lia].
        intros _. split; [reflexivity|].
        rewrite Hhere, negamax_node. eapply replies_win; [exact Hin|].
        apply Hloss. lia. }
      destruct (beta <=? - cv) eqn:Hcut.
      { injection Hres as <- <-. apply Z.leb_le in Hcut. unfold verdict_ok. simpl.
        split; [exact Hb4|]. split; [lia|]. split; [|intros; lia].
        intros ->. assert (Hcv : cv = -1) by lia.
        destruct (Hloss Hcv) as [Hs _]. rewrite Hs in Hsw. simpl in Hsw.
        apply Z.eqb_neq in Hsw. lia. }
      apply Z.leb_gt in Hcut.
      eapply IH; [exact Hb4 | | | | | exact Hres | exact Hto]; try lia.
      - intros m Hm. apply Hrem. right; exact Hm.
      - intros Hm1. assert (alpha = -1 /\ cv = 1) as [-> ->] by lia.
        destruct (Hinv eq_refl) as [-> Hdone].
        destruct (Hwin eq_refl) as [-> Hchv]. split; [reflexivity|].
        intros m ch' Hin'. destruct (Hdone m ch' Hin') as [[<- | Hm] | Hv]; auto.
        right. destruct Hwf as [Hnd _].
        rewrite <- (child_unique _ _ _ _ Hnd Hin Hin'). exact Hchv. }
    destruct (alpha <? - cv) eqn:Hlt.
    + destruct (depth =? 0)%nat eqn:Hd.
      * eapply (Hstep (set_best_move position s3 move)); [exact Hb3 | reflexivity | exact Hloop].
      * eapply (Hstep s3); [exact Hb3 | reflexivity | exact Hloop].
    + eapply (Hstep s3); [exact Hb3 | reflexivity | exact Hloop].
Qed.

Lemma search_sound (fuel : nat) :
  forall s alpha beta depth r s',
    wf (node s) -> -1 <= alpha -> alpha < beta -> beta <= 1 ->
    search fuel s alpha beta depth = Some (r, s') ->
    timed_out r = false ->
    verdict_ok (board s) r s'.
Proof.
  induction fuel as [|fuel IH]; intros s alpha beta depth r s' Hwf Ha Hab Hb Hs Hto;
    [discriminate|].
  unfold search in Hs. cbn [alpha_beta] in Hs.
  destruct (deadline_passed (ticks s)).
  { injection Hs as <- <-. discriminate. }
  change (board (tick s)) with (board s) in Hs.
  unfold t_is_terminal in Hs at 1. unfold node in Hwf.
  destruct (here (rest (board s))) as [[w|] all] eqn:Hhere; simpl in Hs.
  - destruct (w =? current_player (board s)) eqn:Hw1;
      [| destruct (w =? opponent (current_player (board s))) eqn:Hw2];
      injection Hs as <- <-; unfold verdict_ok; simpl; rewrite Hhere; simpl;
      rewrite Hw1, ?Hw2; repeat split; intros; try reflexivity; try lia.
  - destruct (max_depth s <=? depth)%nat.
    { injection Hs as <- <-. unfold verdict_ok. simpl. repeat split; intros; lia. }
    assert (Hgo : forall moves s0,
              board s0 = board s ->
              (forall m, In m moves <-> In m (map fst all)) ->
              ab_loop position t_play_move t_undo (search fuel) beta depth moves s0 alpha false
                = Some (r, s') ->
              verdict_ok (board s) r s').
    { intros moves s0 Hb0 Hmoves Hl.
      eapply (loop_sound (search fuel) beta depth (board s) all Hhere Hwf Hb);
        [ | exact Hb0 | | exact Ha | exact Hab | | exact Hl | exact Hto].
      - intros s1 a b' r1 s1' Hwf1 Ha1 Hab1 Hb1 Hr1 Hto1. eapply IH; eauto.
      - intros m Hm. apply Hmoves, Hm.
      - intros _. split; [reflexivity|]. intros m ch Hin. left.
        apply Hmoves. apply (in_map fst all (m, ch)), Hin. }
    assert (Hmv : t_moves (board s) = map fst all).
    { unfold t_moves. rewrite Hhere. reflexivity. }
    destruct (depth =? 0)%nat.
    + eapply Hgo; [ | | exact Hs]; [reflexivity|].
      intros m. rewrite <- Hmv. apply shuffle_same.
    + eapply Hgo; [ | | exact Hs]; [reflexivity|].
      intros m. rewrite <- Hmv. reflexivity.
Qed.

End TreeSearch.

(** X1.  On a tree game every call with the full window that returns in
    time returns -1, 0 or 1, and a win or a loss is marked solved and is
    the game value of the position for the side to move. *)
Theorem win_loss_verdicts_exact (deadline_passed : nat -> bool)
    (shuffle : nat -> list Z -> list Z) (fuel : nat) (s s' : Player position)
    (depth : nat) (value : Z) (solved : bool) :
  (forall k l m, In m (shuffle k l) <-> In m l) ->
  wf (node s) ->
  alpha_beta position t_is_terminal t_play_move t_undo (fun b _ => t_moves b)
             deadline_passed shuffle fuel s (-1) 1 depth
    = Some ((value, solved, false), s') ->
  -1 <= value <= 1 /\
  (value = 1 -> solved = true /\ negamax (node s) (mover s) = 1) /\
  (value = -1 -> solved = true /\ negamax (node s) (mover s) = -1).
Proof.
  intros Hsh Hwf Hs.
  destruct (search_sound deadline_passed shuffle Hsh fuel s (-1) 1 depth _ s' Hwf
              ltac:(lia) ltac:(lia) ltac:(lia) Hs eq_refl) as (_ & Hr & Hw & Hl).
  auto.
Qed.

(** A position won for Black, to move at the root, with two empty points
    9 and 10.  Move 9 lets White fill the board with 10 for a draw.  Move
    10 takes two stones, leaving White the points 9, 11 and 12; whichever
    White takes, Black wins with either of the other two. *)
Definition black_won : tree := Tree (Some BLACK) [].
Definition drawn : tree := Tree (Some EMPTY) [].
Definition missed_D1 : tree := Tree None [(11, black_won); (12, black_won)].
Definition missed_D2 : tree := Tree None [(9, black_won); (12, black_won)].
Definition missed_D3 : tree := Tree None [(9, black_won); (11, black_won)].
Definition missed_C2 : tree := Tree None [(9, missed_D1); (11, missed_D2); (12, missed_D3)].
Definition missed_C1 : tree := Tree None [(10, drawn)].
Definition missed_R : tree := Tree None [(9, missed_C1); (10, missed_C2)].

(** A position in which Black's move 9 loses at once and move 10 holds;
    move 11 is searched last. *)
Definition late_A1 : tree := Tree (Some WHITE) [].
Definition late_A : tree := Tree None [(12, late_A1)].
Definition late_B1 : tree := Tree None [(13, Tree (Some EMPTY) [])].
Definition late_B : tree := Tree None [(12, late_B1)].
Definition late_C : tree := Tree None [(12, late_B1)].
Definition late_R : tree := Tree None [(9, late_A); (10, late_B); (11, late_C)].

(** A board without moves: the game has ended in a draw. *)
Definition full : tree := Tree (Some EMPTY) [].

(** A deadline that passes at the [n]-th test. *)
Definition deadline_at (n : nat) (k : nat) : bool := (n <=? k)%nat.

Definition never (k : nat) : bool := false.

(** A player in the middle of a search of depth limit [limit], its board
    at node [t] with [to_move] to play. *)
Definition searching (t : tree) (to_move : Z) (limit : nat) : Player position :=
  mkPlayer (t_board t to_move) 0 limit 0 0 [].

(** C1.  [missed_R] is won for Black, who is to move.  Searching it with
    depth limit 2, the root call returns value 0 marked solved, and
    [solve_board] announces a draw with the drawing move 9.  The mark comes
    from the node reached by 10: there, with window (-1, 0), the first
    child explored is cut off at the depth limit and returns 0 unsolved,
    yet the beta cut-off returns 0 marked solved, although the node is lost
    for its side. *)
Theorem solver_reports_false_draw :
  negamax missed_R BLACK = 1 /\
  (exists self',
     t_alpha_beta never 3 (searching missed_R BLACK 2) (-1) 1 0
     = Some ((0, true, false), self')) /\
  (exists self',
     t_solve_board never 2 (t_player (t_board missed_R BLACK)) (t_board missed_R BLACK)
     = Some (("draw"%string, Some "a1"%string), self', t_board missed_R BLACK)) /\
  negamax missed_C2 WHITE = -1 /\
  (exists self',
     t_alpha_beta never 1 (searching missed_D1 BLACK 2) 0 1 2
     = Some ((0, false, false), self')) /\
  (exists self',
     t_alpha_beta never 2 (searching missed_C2 WHITE 2) (-1) 0 1
     = Some ((0, true, false), self')).
Proof.
  split; [reflexivity|].
  split; [eexists; vm_compute; reflexivity|].
  split; [eexists; vm_compute; reflexivity|].
  split; [reflexivity|].
  split; eexists; vm_compute; reflexivity.
Qed.



Lemma timeout_propagates_witness :
  let self := searching late_R BLACK 2 in
  exists value solved timeout self',
    t_alpha_beta (deadline_at 5) 3 self (-1) 1 0
      = Some ((value, solved, timeout), self') /\
    (deadline_at 5 (ticks self) = true ->
     (value, solved, timeout) = (0, false, true) /\ self' = tick self) /\
    (timeout = true ->
     value = 0 /\ solved = false /\
     exists k, ticks self' = S k /\ (ticks self <= k)%nat /\
               deadline_at 5 k = true /\
               forall j, (ticks self <= j < k)%nat -> deadline_at 5 j = false) /\
    (forall j, (ticks self <= j < ticks self')%nat -> deadline_at 5 j = true ->
               timeout = true /\ solved = false).
Proof.
  intros self.
  apply (timeout_propagates position t_is_terminal t_play_move t_undo
           (fun b _ => t_moves b) (deadline_at 5) (fun _ l => l)
           3 self (-1) 1 0).
  simpl. lia.
Defined.

Lemma solver_restores_board_witness :
  let b := t_board late_R BLACK in
  exists v self',
    t_solve_board (deadline_at 9) 5 (t_player b) b = Some (v, self', b) /\
    (exists t, calls self' = calls (t_player b) ++ t /\ balanced t) /\
    board self' = t_copy b.
Proof.
  intros b. eexists; eexists. split; [vm_compute; reflexivity|].
  edestruct (solver_restores_board position t_moves t_is_terminal t_play_move
               t_undo t_copy t_check (fun _ => []) (fun _ _ => 0)
               (fun b _ => t_moves b) (deadline_at 9) (fun _ l => l)
               5 (t_player b) b) as (_ & Hcalls & _ & Hboard);
    [vm_compute; reflexivity|].
  split; [exact Hcalls|].
  apply Hboard; [exact t_undo_inverts | exact plain_shuffle_keeps].
Defined.

Lemma get_move_pass_witness :
  t_get_move never 5 (t_player (t_board full BLACK)) (t_board full BLACK) (PyInt WHITE)
    = Some ("pass"%string, t_player (t_board full BLACK), t_board full BLACK) /\
  (forall text self' b',
     t_get_move never 5 (t_player (t_board late_R BLACK)) (t_board late_R BLACK)
                (PyStr "b") = Some (text, self', b') ->
     text <> "pass"%string).
Proof.
  split.
  - apply (get_move_pass position t_moves t_is_terminal t_play_move
             t_undo t_copy t_check (fun _ => []) (fun _ _ => 0)
             (fun b _ => t_moves b) never (fun _ l => l)
             5 (t_player (t_board full BLACK)) (t_board full BLACK) (PyInt WHITE)).
    reflexivity.
  - apply (get_move_pass position t_moves t_is_terminal t_play_move
             t_undo t_copy t_check (fun _ => []) (fun _ _ => 0)
             (fun b _ => t_moves b) never (fun _ l => l)
             5 (t_player (t_board late_R BLACK)) (t_board late_R BLACK) (PyStr "b")).
    + discriminate.
    + exact t_undo_inverts.
    + exact plain_shuffle_keeps.
    + split; [discriminate|].
      intros p Hp. vm_compute in Hp.
      repeat (destruct Hp as [Hp | Hp]);
        try contradiction; subst p; vm_compute; discriminate.
Defined.

Lemma wf_late_A : wf late_A.
Proof.
  simpl. repeat split;
    repeat (first [apply NoDup_nil_2
                  | apply NoDup_cons_2;
                    [intros H; apply list_elem_of_In in H; simpl in H; tauto|]]).
Qed.

Lemma win_loss_verdicts_exact_witness :
  exists s',
    t_alpha_beta never 3 (searching late_A WHITE 2) (-1) 1 0
      = Some ((1, true, false), s') /\
    negamax late_A WHITE = 1.
Proof.
  assert (H : exists s',
             t_alpha_beta never 3 (searching late_A WHITE 2) (-1) 1 0
             = Some ((1, true, false), s'))
    by (eexists; vm_compute; reflexivity).
  destruct H as [s' H]. exists s'. split; [exact H|].
  destruct (win_loss_verdicts_exact never (fun _ l => l) 3
              (searching late_A WHITE 2) s' 0%nat 1 true) as (_ & Hwin & _).
  - intros k l m. reflexivity.
  - exact wf_late_A.
  - exact H.
  - apply Hwin. reflexivity.
Defined.

(** C10, as stated, fails on a board without empty points: [get_move]
    with the integer colour of White answers ["pass"] before it looks at the
    colour, and the board keeps White as current player. *)
Lemma integer_colour_on_full_board :
  let b := t_board full WHITE in
  t_get_move never 5 (t_player b) b (PyInt WHITE) = Some ("pass"%string, t_player b, b) /\
  current_player b = WHITE /\
  current_player b <> BLACK.
Proof. split; [reflexivity|]. split; [reflexivity | discriminate]. Qed.

Lemma integer_colour_selects_black_witness :
  let b := t_board late_R WHITE in
  side_selected (PyInt WHITE) = BLACK /\
  forall text self' b',
    t_get_move never 5 (t_player b) b (PyInt WHITE) = Some (text, self', b') ->
    current_player b' = BLACK.
Proof.
  intros b.
  destruct (integer_colour_selects_black position t_moves t_is_terminal t_play_move
              t_undo t_copy t_check (fun _ => []) (fun _ _ => 0)
              (fun b _ => t_moves b) never (fun _ l => l)
              5 (t_player b) b WHITE) as (Hside & _ & _ & Hplayer).
  split; [exact Hside|].
  apply Hplayer. discriminate.
Defined.


(** *** The move behind a win verdict *)


Section TreeSolve.

(** Any deadline, any shuffle that neither drops nor invents moves, and
    any [check]. *)
Variable deadline_passed : nat -> bool.
Variable shuffle : nat -> list Z -> list Z.
Hypothesis shuffle_same : forall k l m, In m (shuffle k l) <-> In m l.
Variable check : TBoard -> Verdict.

Let search :=
  alpha_beta position t_is_terminal t_play_move t_undo
             (fun b _ => t_moves b) deadline_passed shuffle.







End TreeSolve.


(** A board whose potential moves are 4, 7, 9 and 12, of which 7 is
    answered 2 and both 9 and 12 are answered 1. *)
Definition tiers_of (b : GoBoard unit) (move : Z) : Z :=
  if move =? 7 then 2 else if (move =? 9) || (move =? 12) then 1 else 0.

Definition tiered : Player unit := mkPlayer (mkBoard 7 BLACK None tt) 0 0 0 0 [].

Lemma rule_priority_witness :
  rule unit (fun _ => [4; 7; 9; 12]) tiers_of tiered = Some (Some 9) /\
  tiers_of (board tiered) 9 = 1.
Proof.
  destruct (rule_priority unit (fun _ => [4; 7; 9; 12]) tiers_of tiered)
    as [[Hnone _] | (x & pre & post & Hrule & _ & Hx & _)].
  - intros move Hin. simpl in Hin.
    repeat (destruct Hin as [<- | Hin]; [vm_compute; split; discriminate|]).
    destruct Hin.
  - vm_compute in Hnone. discriminate Hnone.
  - split; vm_compute; reflexivity.
Defined.

Lemma solve_board_returns_witness :
  let b := t_board late_R BLACK in
  exists v self',
    t_solve_board (deadline_at 9) 10 (t_player b) b = Some (v, self', b) /\
    (ticks self' <= 10)%nat.
Proof.
  intros b.
  apply (solve_board_returns position t_moves t_is_terminal t_play_move t_undo
           t_copy t_check (fun _ => []) (fun _ _ => 0) (fun b _ => t_moves b)
           (deadline_at 9) (fun _ l => l) (t_player b) b 9%nat 10%nat).
  - exact t_undo_inverts.
  - exact plain_shuffle_keeps.
  - intros move [].
  - intros p Hp. vm_compute in Hp.
    repeat (destruct Hp as [Hp | Hp]);
      try (subst p; eexists; vm_compute; reflexivity); destruct Hp.
  - discriminate.
  - simpl. lia.
  - reflexivity.
  - simpl. lia.
Defined.


End Solver.
